(** * sip-party: the transport and transaction coordination layer

    A shallow embedding of the parts of the repository that own the retry
    timer list ([sip/retrythread.py]), the socket cache ([sipparty/transport.py]),
    the SIP message demultiplexer ([sipparty/sip/siptransport.py]) and the
    transaction manager ([sipparty/sip/transaction/manager.py]), with the
    properties of each proved against the embedding.

    Python objects that are mutated in place are modelled by explicit state
    passing; raised exceptions by a [result] type; dictionaries by stdpp's
    [gmap] where only lookups matter and by association lists where iteration
    order is observable (the wildcard finders of the socket cache). *)

From Stdlib Require Import ZArith Lia Sorted.
From Stdlib.Strings Require Import Byte.
From stdpp Require Import base list sorting gmap strings pretty.

Open Scope Z_scope.

(** ** Python runtime: exceptions and results *)

Module Py.

(** The exception classes the modelled code raises or catches.  All of them
    derive from Python's [Exception]. *)
Inductive exn :=
  | AssertionError
  | AttributeError (name : string)
  | KeyError (msg : string)
  | TypeError (msg : string)
  | ValueError (msg : string)
  | NotImplementedError
  | ParseError
  | SocketInUseError
  | BadNetwork
  | OtherException (cls : string).

Inductive result (A : Type) :=
  | Ok (a : A)
  | Raise (e : exn).
Arguments Ok {A} a.
Arguments Raise {A} e.

End Py.

(** ** The retry thread ([sip/retrythread.py]) *)

Module RetryThread.

(** The fields of [RetryThread] that [addRetryTime] and the timer part of
    [run] touch.  Times are the values of [Clock]; they are only compared
    with [<] and [==], and are taken here as integers.  [triggers] counts the
    bytes written to [_rthr_triggerRunFD]. *)
Record t := mk {
  _rthr_retryTimes : list Z;
  triggers : nat
}.

Definition init : t := {| _rthr_retryTimes := []; triggers := 0 |}.

(** The [for ii, time in zip(range(len(ts)), ts)] loop with its [else]
    clause.  [Some ii] is the index the loop leaves in [ii] ([break] on
    [ctime < time], or [len(ts)] from the [else] clause); [None] is the early
    [return] taken on [ctime == time]. *)
Fixpoint scan (ctime : Z) (ii : nat) (times : list Z) : option nat :=
  match times with
  | [] => Some ii
  | time :: rest =>
      if ctime <? time then Some ii
      else if ctime =? time then None
      else scan ctime (S ii) rest
  end.

(** [list.insert(ii, x)] for [0 <= ii]: indices past the end append. *)
Definition py_insert (ii : nat) (x : Z) (l : list Z) : list Z :=
  take ii l ++ x :: drop ii l.

Definition addRetryTime (ctime : Z) (self : t) : t :=
  match scan ctime 0 (_rthr_retryTimes self) with
  | None => self
  | Some ii =>
      {| _rthr_retryTimes := py_insert ii ctime (_rthr_retryTimes self);
         triggers := S (triggers self) |}
  end.

(** [del self._rthr_retryTimes[0]], the reactor's removal of a fired
    deadline ([run] only reaches it when the list is not empty). *)
Definition fired (self : t) : t :=
  {| _rthr_retryTimes := tail (_rthr_retryTimes self);
     triggers := triggers self |}.

(** A sequence of [addRetryTime] calls on a fresh thread. *)
Definition addRetryTimes (calls : list Z) (self : t) : t :=
  foldl (fun st c => addRetryTime c st) self calls.

Definition ascending (l : list Z) : Prop := StronglySorted Z.lt l.

Example addRetryTimes_ex :
  _rthr_retryTimes (addRetryTimes [5; 1; 3; 5; 0; 3] init) = [0; 1; 3; 5].
Proof. reflexivity. Qed.

Example addRetryTimes_triggers_ex :
  triggers (addRetryTimes [5; 1; 3; 5; 0; 3] init) = 4%nat.
Proof. reflexivity. Qed.

(** The scan, described on the list alone: what is inserted where. *)
Fixpoint inserted (ctime : Z) (times : list Z) : option (list Z) :=
  match times with
  | [] => Some [ctime]
  | time :: rest =>
      if ctime <? time then Some (ctime :: time :: rest)
      else if ctime =? time then None
      else option_map (cons time) (inserted ctime rest)
  end.

Lemma scan_inserted ctime pre times :
  match scan ctime (length pre) times with
  | None => inserted ctime times = None
  | Some ii =>
      option_map (app pre) (inserted ctime times)
      = Some (py_insert ii ctime (pre ++ times))
  end.
Proof.
  revert pre. induction times as [|time rest IH]; intros pre; simpl.
  - unfold py_insert. rewrite app_nil_r, take_ge, drop_ge by lia. reflexivity.
  - destruct (ctime <? time).
    + unfold py_insert. simpl.
      rewrite take_app_length, drop_app_length. reflexivity.
    + destruct (ctime =? time); [reflexivity|].
      specialize (IH (pre ++ [time])).
      rewrite length_app in IH. simpl in IH.
      replace (length pre + 1)%nat with (S (length pre)) in IH by lia.
      destruct (scan ctime (S (length pre)) rest) as [ii|].
      * rewrite <- app_assoc in IH. simpl in IH. rewrite <- IH.
        destruct (inserted ctime rest); simpl; [|reflexivity].
        rewrite <- app_assoc. reflexivity.
      * rewrite IH. reflexivity.
Qed.

Lemma addRetryTime_times ctime self :
  _rthr_retryTimes (addRetryTime ctime self)
  = default (_rthr_retryTimes self) (inserted ctime (_rthr_retryTimes self)).
Proof.
  unfold addRetryTime.
  pose proof (scan_inserted ctime [] (_rthr_retryTimes self)) as H.
  simpl in H. destruct (scan ctime 0 (_rthr_retryTimes self)) as [ii|].
  - destruct (inserted ctime (_rthr_retryTimes self)); simpl in *; congruence.
  - rewrite H. reflexivity.
Qed.

Lemma inserted_bound ctime times l lo :
  inserted ctime times = Some l ->
  lo < ctime -> Forall (Z.lt lo) times -> Forall (Z.lt lo) l.
Proof.
  revert l. induction times as [|time rest IH]; intros l; simpl.
  - intros [= <-] ? _. repeat constructor; assumption.
  - intros H Hlo Hall. inversion Hall; subst.
    destruct (ctime <? time).
    + injection H as <-. repeat constructor; assumption.
    + destruct (ctime =? time); [discriminate|].
      destruct (inserted ctime rest) as [l'|] eqn:E; [|discriminate].
      injection H as <-. constructor; [assumption|]. apply IH; auto.
Qed.

Lemma inserted_ascending ctime times l :
  ascending times -> inserted ctime times = Some l -> ascending l.
Proof.
  unfold ascending. intros Hs. revert l.
  induction Hs as [|time rest Hs IH Hall]; intros l; simpl.
  - intros [= <-]. repeat constructor.
  - destruct (ctime <? time) eqn:Hlt.
    + intros [= <-]. apply Z.ltb_lt in Hlt.
      constructor; [constructor; assumption|].
      constructor; [assumption|].
      eapply Forall_impl; [exact Hall|]. intros; simpl in *; lia.
    + destruct (ctime =? time) eqn:Heq; [discriminate|].
      destruct (inserted ctime rest) as [l'|] eqn:E; [|discriminate].
      intros [= <-]. apply Z.ltb_ge in Hlt. apply Z.eqb_neq in Heq.
      constructor; [apply IH; reflexivity|].
      eapply inserted_bound; eauto. lia.
Qed.

Lemma inserted_present ctime times :
  ascending times -> ctime ∈ times -> inserted ctime times = None.
Proof.
  unfold ascending. intros Hs.
  induction Hs as [|time rest Hs IH Hall]; intros Hin; simpl.
  - inversion Hin.
  - apply elem_of_cons in Hin as [->|Hin].
    + rewrite Z.ltb_irrefl, Z.eqb_refl. reflexivity.
    + rewrite Forall_forall in Hall. specialize (Hall _ Hin).
      replace (ctime <? time) with false by (symmetry; apply Z.ltb_ge; lia).
      replace (ctime =? time) with false by (symmetry; apply Z.eqb_neq; lia).
      rewrite (IH Hin). reflexivity.
Qed.

Lemma addRetryTime_ascending ctime self :
  ascending (_rthr_retryTimes self) ->
  ascending (_rthr_retryTimes (addRetryTime ctime self)).
Proof.
  intros Hs. rewrite addRetryTime_times.
  destruct (inserted ctime (_rthr_retryTimes self)) eqn:E; simpl; [|assumption].
  eapply inserted_ascending; eauto.
Qed.

Lemma fired_ascending self :
  ascending (_rthr_retryTimes self) -> ascending (_rthr_retryTimes (fired self)).
Proof.
  unfold ascending, fired. simpl.
  destruct (_rthr_retryTimes self); simpl; [auto|]. inversion 1; assumption.
Qed.

Lemma addRetryTime_present ctime self :
  ascending (_rthr_retryTimes self) ->
  ctime ∈ _rthr_retryTimes self -> addRetryTime ctime self = self.
Proof.
  intros Hs Hin. unfold addRetryTime.
  pose proof (scan_inserted ctime [] (_rthr_retryTimes self)) as H.
  simpl in H. rewrite (inserted_present _ _ Hs Hin) in H.
  destruct (scan ctime 0 (_rthr_retryTimes self)); [discriminate|reflexivity].
Qed.

Lemma addRetryTimes_ascending calls self :
  ascending (_rthr_retryTimes self) ->
  ascending (_rthr_retryTimes (addRetryTimes calls self)).
Proof.
  revert self. induction calls as [|c calls IH]; intros self Hs; simpl.
  - assumption.
  - apply IH, addRetryTime_ascending, Hs.
Qed.

(** C1. Whatever sequence of [addRetryTime] calls is made on a fresh
    [RetryThread], the retry-times list is in (strictly) ascending order, and
    a further call with a time that is already in the list changes nothing:
    the list is the same and no wake-up byte is sent. *)
Theorem addRetryTime_sorted_dedup (calls : list Z) :
  let self := addRetryTimes calls init in
  ascending (_rthr_retryTimes self) /\
  forall ctime, ctime ∈ _rthr_retryTimes self -> addRetryTime ctime self = self.
Proof.
  intros self.
  assert (Hs : ascending (_rthr_retryTimes self)).
  { apply addRetryTimes_ascending. constructor. }
  split; [exact Hs|]. intros ctime Hin. apply addRetryTime_present; assumption.
Qed.

(** *** More of the thread: what is pending, and the timer part of [run] *)

(** The times of the list after [addRetryTime] are the time added and the
    times that were there, for any list. *)
Lemma inserted_elem ctime times l x :
  inserted ctime times = Some l -> x ∈ l <-> x = ctime \/ x ∈ times.
Proof.
  revert l. induction times as [|time rest IH]; intros l; simpl.
  - intros [= <-]. rewrite list_elem_of_singleton. pose proof (not_elem_of_nil x). tauto.
  - destruct (ctime <? time).
    + intros [= <-]. rewrite elem_of_cons. tauto.
    + destruct (ctime =? time); [discriminate|].
      destruct (inserted ctime rest) as [l'|]; [|discriminate].
      intros [= <-]. rewrite !elem_of_cons, (IH l' eq_refl). tauto.
Qed.

Lemma inserted_None_elem ctime times :
  inserted ctime times = None -> ctime ∈ times.
Proof.
  induction times as [|time rest IH]; simpl; [discriminate|].
  destruct (ctime <? time); [discriminate|].
  destruct (ctime =? time) eqn:E.
  - intros _. apply Z.eqb_eq in E as ->. apply list_elem_of_here.
  - destruct (inserted ctime rest); [discriminate|].
    intros _. apply list_elem_of_further, IH. reflexivity.
Qed.

(** X1. [addRetryTime] loses no deadline and invents none: whatever the list,
    sorted or not, the times pending after the call are the time added and
    the times that were pending. *)
Theorem addRetryTime_elem (ctime x : Z) (self : t) :
  x ∈ _rthr_retryTimes (addRetryTime ctime self)
  <-> x = ctime \/ x ∈ _rthr_retryTimes self.
Proof.
  rewrite addRetryTime_times.
  destruct (inserted ctime (_rthr_retryTimes self)) as [l|] eqn:E; simpl.
  - eapply inserted_elem, E.
  - apply inserted_None_elem in E. split; [auto|]. intros [->|H]; assumption.
Qed.

(** What the owner of the thread and the thread itself do to the list. *)
Inductive op :=
  | Add (ctime : Z)
  | Fired.

Definition apply_op (self : t) (o : op) : t :=
  match o with
  | Add ctime => addRetryTime ctime self
  | Fired => fired self
  end.

(** X2. However calls of [addRetryTime] and removals of fired deadlines are
    interleaved on a fresh thread, the list stays strictly ascending, so the
    deadline [run] reads at index 0 is earlier than every other pending
    one. *)
Theorem head_is_earliest (ops : list op) (next : Z) (later : list Z) :
  _rthr_retryTimes (foldl apply_op init ops) = next :: later ->
  Forall (Z.lt next) later.
Proof.
  assert (H : ascending (_rthr_retryTimes (foldl apply_op init ops))).
  { assert (G : forall self, ascending (_rthr_retryTimes self) ->
                  ascending (_rthr_retryTimes (foldl apply_op self ops))).
    { induction ops as [|o ops IH]; intros self Hs; simpl; [assumption|].
      apply IH. destruct o; simpl;
        [apply addRetryTime_ascending|apply fired_ascending]; assumption. }
    apply G. constructor. }
  intros E. rewrite E in H. inversion H; assumption.
Qed.

Lemma head_is_earliest_witness :
  Forall (Z.lt 1) [3; 5].
Proof.
  apply (head_is_earliest [Add 5; Add 0; Add 3; Fired; Add 1; Add 5]).
  reflexivity.
Defined.

(** The timer part of one turn of the loop of [run], for a list read under
    the lock and the clock read after it: the deadline on which the action
    is called (if any), the next [wait], and the thread after the turn.  The
    clock is not read when the list is empty. *)
Definition check_timers (now : Z) (self : t) : option Z * Z * t :=
  match _rthr_retryTimes self with
  | [] => (None, 3600, self)
  | next :: _ =>
      if next >? now then (None, next - now, self)
      else (Some next, 0, fired self)
  end.

(** Turn after turn, with the reading of the clock of each turn: the
    deadlines that came due (on each the action is called, when there is
    one), each with the reading. *)
Fixpoint run (clock : list Z) (self : t) : list (Z * Z) * t :=
  match clock with
  | [] => ([], self)
  | now :: clock =>
      match check_timers now self with
      | (Some next, _, self) =>
          let '(calls, self) := run clock self in ((next, now) :: calls, self)
      | (None, _, self) => run clock self
      end
  end.

Example run_ex :
  run [0; 2; 2; 7; 7; 7] (addRetryTimes [5; 1; 9] init)
  = ([(1, 2); (5, 7)], {| _rthr_retryTimes := [9]; triggers := 3 |}).
Proof. reflexivity. Qed.

Lemma run_split clock : forall self,
  exists k,
    (run clock self).1.*1 = take k (_rthr_retryTimes self) /\
    _rthr_retryTimes (run clock self).2 = drop k (_rthr_retryTimes self) /\
    Forall (fun call => call.1 <= call.2) (run clock self).1.
Proof.
  induction clock as [|now clock IH]; intros self; simpl.
  - exists 0%nat. rewrite take_0, drop_0. auto.
  - unfold check_timers.
    destruct (_rthr_retryTimes self) as [|next rest] eqn:E.
    + destruct (IH self) as (k & H1 & H2 & H3). exists k.
      rewrite E in H1, H2. auto.
    + destruct (next >? now) eqn:Hn.
      * destruct (IH self) as (k & H1 & H2 & H3). exists k.
        rewrite E in H1, H2. auto.
      * destruct (IH (fired self)) as (k & H1 & H2 & H3).
        destruct (run clock (fired self)) as [calls self'].
        unfold fired in H1, H2. simpl in H1, H2, H3. rewrite E in H1, H2.
        change (tail (next :: rest)) with rest in H1, H2.
        exists (S k). cbn. rewrite H1, H2.
        split; [reflexivity|]. split; [reflexivity|].
        rewrite Z.gtb_ltb in Hn. apply Z.ltb_ge in Hn.
        constructor; [simpl; lia|assumption].
Qed.

(** X3. With no deadline added meanwhile, the loop calls the action on the
    pending deadlines in their order, earliest first and each once, never
    before the clock has reached the deadline, and leaves the others
    pending. *)
Theorem run_fires_in_order (clock : list Z) (self : t) :
  ascending (_rthr_retryTimes self) ->
  let '(calls, self') := run clock self in
  calls.*1 ++ _rthr_retryTimes self' = _rthr_retryTimes self /\
  ascending (calls.*1) /\
  Forall (fun call => call.1 <= call.2) calls.
Proof.
  intros Hs. destruct (run_split clock self) as (k & H1 & H2 & H3).
  destruct (run clock self) as [calls self']. simpl in *.
  rewrite H1, H2, take_drop. split; [reflexivity|]. split; [|assumption].
  unfold ascending in *. rewrite <- (take_drop k) in Hs.
  apply StronglySorted_app_1_l in Hs. exact Hs.
Qed.

Lemma run_fires_in_order_witness :
  let '(calls, self') := run [0; 2; 2; 7] (addRetryTimes [5; 1; 9] init) in
  ascending (calls.*1).
Proof.
  pose proof (run_fires_in_order [0; 2; 2; 7] (addRetryTimes [5; 1; 9] init))
    as H.
  destruct (run [0; 2; 2; 7] (addRetryTimes [5; 1; 9] init)) as [calls self'].
  apply H. apply addRetryTimes_ascending. constructor.
Defined.

End RetryThread.

(** ** The socket cache of the transport ([sipparty/transport.py]) *)

Module Transport.
Import Py.

Inductive SockFamily := AF_INET | AF_INET6.
Inductive SockType := SOCK_STREAM | SOCK_DGRAM.

(** A transport name: one of the four special singletons or a string. *)
Inductive Name :=
  | NameAll
  | NameLANHostname
  | NameLoopbackAddress
  | SendFromAddressNameAny
  | HostName (s : string).

Definition IsSpecialName (name : Name) : bool :=
  match name with HostName _ => false | _ => true end.

(** The values used as dictionary keys in the cache: [None], a socket
    family, a socket type, a name, or an integer (port, flowinfo, scopeid). *)
Inductive Key :=
  | KNone
  | KFamily (f : SockFamily)
  | KType (t : SockType)
  | KName (n : Name)
  | KInt (z : Z).

#[global] Instance SockFamily_eq_dec : EqDecision SockFamily.
Proof. solve_decision. Defined.
#[global] Instance SockType_eq_dec : EqDecision SockType.
Proof. solve_decision. Defined.
#[global] Instance Name_eq_dec : EqDecision Name.
Proof. solve_decision. Defined.
#[global] Instance Key_eq_dec : EqDecision Key.
Proof. solve_decision. Defined.

Definition key_of_family (f : option SockFamily) : Key :=
  match f with Some f => KFamily f | None => KNone end.
Definition key_of_int (z : option Z) : Key :=
  match z with Some z => KInt z | None => KNone end.
Definition key_of_name (n : option Name) : Key :=
  match n with Some n => KName n | None => KNone end.

(** [ListenDescription], with the two extra attributes of its subclass
    [ConnectedAddressDescription] ([connected] tells the classes apart). *)
Record ListenDescription := mkDesc {
  sock_family : option SockFamily;
  sock_type : SockType;
  name : Name;
  port : Z;
  flowinfo : option Z;
  scopeid : option Z;
  port_filter : option (Key -> bool);
  connected : bool;
  remote_name : option Name;
  remote_port : option Z
}.

(** What a [SocketProxy] wraps: an OS socket, known by its descriptor, or
    another proxy whose socket it shares. *)
Inductive SocketRef :=
  | OSSocket (fileno : Z)
  | SharedProxy (fileno : Z).

(** Modelled from the spec: [Retainable] (in [util], not part of the
    sources at hand) is a retain count; [retain] increments it, [release]
    decrements it and [is_retained] tells whether a holder remains. *)
Record SocketProxy := mkProxy {
  local_address : ListenDescription;
  socket : SocketRef;
  is_connected : bool;
  retain_count : Z
}.

Definition retain (s : SocketProxy) : SocketProxy :=
  mkProxy (local_address s) (socket s) (is_connected s) (retain_count s + 1).
Definition release (s : SocketProxy) : SocketProxy :=
  mkProxy (local_address s) (socket s) (is_connected s) (retain_count s - 1).
Definition is_retained (s : SocketProxy) : bool := 0 <? retain_count s.

#[local] Set Warnings "-register-all".

(** The cache: nested dictionaries with socket proxies at the leaves.  A
    dictionary is kept as its list of items in iteration order, which is what
    the wildcard finders observe. *)
Inductive Cache :=
  | Sock (s : SocketProxy)
  | Dict (items : list (Key * Cache)).

Definition Items := list (Key * Cache).

(** [d.get(key)] *)
Fixpoint dict_get (key : Key) (d : Items) : option Cache :=
  match d with
  | [] => None
  | (k, v) :: rest => if decide (k = key) then Some v else dict_get key rest
  end.

(** [d[key] = obj]: an existing key keeps its place, a new one goes last. *)
Fixpoint dict_set (key : Key) (obj : Cache) (d : Items) : Items :=
  match d with
  | [] => [(key, obj)]
  | (k, v) :: rest =>
      if decide (k = key) then (k, obj) :: rest
      else (k, v) :: dict_set key obj rest
  end.

(** [del d[key]] (for a key that is present) *)
Fixpoint dict_del (key : Key) (d : Items) : Items :=
  match d with
  | [] => []
  | (k, v) :: rest =>
      if decide (k = key) then rest else (k, v) :: dict_del key rest
  end.

(** A finder takes the dictionary of a level and the key that was not found
    there, and answers a pair [(key, obj)]; [obj] is [None] when nothing
    suits. *)
Definition Finder := Items -> Key -> Key * option Cache.
Definition Lookups := list (Key * option Finder).

(** The finders of [convert_listen_description_into_find_tuple]. *)
Definition new_dict_finder : Finder := fun _dict key => (key, Some (Dict [])).

Fixpoint first_suitable (ok : Key -> bool) (pdict : Items) : Key * option Cache :=
  match pdict with
  | [] => (KNone, None)
  | (k, next_dict) :: rest =>
      if ok k then (k, Some next_dict) else first_suitable ok rest
  end.

Definition find_suitable_port (pfilter : option (Key -> bool)) : Finder :=
  fun pdict port =>
    if negb (bool_decide (port = KInt 0)) then (KNone, None)
    else first_suitable
           (fun p => match pfilter with None => true | Some f => f p end) pdict.

Definition find_suitable_name : Finder :=
  fun pdict name =>
    if negb (bool_decide (name = KName SendFromAddressNameAny)) then (KNone, None)
    else first_suitable (fun _ => true) pdict.

Definition find_suitable_flowinfo_or_scopeid : Finder :=
  fun pdict val =>
    if negb (bool_decide (val = KNone)) then (KNone, None)
    else first_suitable (fun _ => true) pdict.

Definition convert_listen_description_into_find_tuple
    (listen_address : ListenDescription) : Lookups :=
  let rtup :=
    [ (key_of_family (sock_family listen_address), Some new_dict_finder);
      (KType (sock_type listen_address), Some new_dict_finder);
      (KName (name listen_address), Some find_suitable_name);
      (KInt (port listen_address),
         Some (find_suitable_port (port_filter listen_address)));
      (key_of_int (flowinfo listen_address),
         Some find_suitable_flowinfo_or_scopeid);
      (key_of_int (scopeid listen_address),
         Some find_suitable_flowinfo_or_scopeid) ] in
  if bool_decide (sock_family listen_address = Some AF_INET)
  then take 4 rtup else rtup.

Definition convert_connected_address_description_into_find_tuple
    (cad : ListenDescription) : Lookups :=
  let ladtuple := convert_listen_description_into_find_tuple cad in
  take 2 ladtuple
  ++ [ (key_of_name (remote_name cad), None);
       (key_of_int (remote_port cad), None) ]
  ++ drop 2 ladtuple.

(** [yield_dict_path], run to exhaustion as [find_cached_object] does.  The
    answer is the list of [(key, obj)] pairs yielded, or the exception that
    ended the walk, together with the dictionary as the walk leaves it: the
    walk assigns [next_dict[key] = obj] at every level where the key was
    missing and a finder supplied an object.  The objects of the path are
    references into the cache, so they are given as they stand after the
    walk ([yielded] puts the object of a level, as the rest of the walk
    leaves it, on the path and in its dictionary).  A level that is a socket
    proxy where a dictionary is expected has no [get].  No key is a [bytes]
    object (a name that is a string is a [str]), so the assertion on the key
    holds. *)
Definition yielded (key : Key) (d : Items)
    (walk : result (list (Key * Cache)) * Cache)
  : result (list (Key * Cache)) * Cache :=
  let '(r, obj) := walk in
  let d := Dict (dict_set key obj d) in
  match r with
  | Ok path => (Ok ((key, obj) :: path), d)
  | Raise e => (Raise e, d)
  end.

Fixpoint yield_dict_path (next_dict : Cache) (lookups : Lookups)
  : result (list (Key * Cache)) * Cache :=
  match lookups with
  | [] => (Ok [], next_dict)
  | (key, finder) :: rest =>
      match next_dict with
      | Sock _ => (Raise (AttributeError "get"), next_dict)
      | Dict d =>
          match dict_get key d with
          | Some obj => yielded key d (yield_dict_path obj rest)
          | None =>
              match finder with
              | None => (Ok [], next_dict)
              | Some finder =>
                  match finder d key with
                  | (_, None) => (Ok [], next_dict)
                  | (key, Some obj) =>
                      yielded key (dict_set key obj d) (yield_dict_path obj rest)
                  end
              end
          end
      end
  end.

(** [find_cached_object]: the path, and the object at its end when the path
    has the full length. *)
Definition find_cached_object (cache_dict : Cache) (find_tuple : Lookups)
  : result (list (Key * Cache) * option Cache) * Cache :=
  let full_path_len := length find_tuple in
  match yield_dict_path cache_dict find_tuple with
  | (Raise e, cache_dict) => (Raise e, cache_dict)
  | (Ok path, cache_dict) =>
      if bool_decide (length path = 7%nat) && bool_decide (full_path_len = 8%nat)
      then (Raise AssertionError, cache_dict)
      else if negb (bool_decide (length path ≤ full_path_len)%nat)
      then (Raise AssertionError, cache_dict)
      else if bool_decide (length path = full_path_len)
      then (Ok (path, snd <$> last path), cache_dict)
      else (Ok (path, None), cache_dict)
  end.

(** [yield_vals]: the socket proxies of the cache, in iteration order. *)
Fixpoint yield_vals (root_dict : Cache) : list SocketProxy :=
  match root_dict with
  | Sock s => [s]
  | Dict d =>
      (fix items (d : Items) : list SocketProxy :=
         match d with
         | [] => []
         | (_, val) :: rest => yield_vals val ++ items rest
         end) d
  end.

(** The object reached from [root] by the keys of a path, and the cache with
    that object replaced or deleted: what a mutation through a reference
    taken from a path does to the cache. *)
Fixpoint cache_at (keys : list Key) (root : Cache) : option Cache :=
  match keys with
  | [] => Some root
  | k :: rest =>
      match root with
      | Sock _ => None
      | Dict d => dict_get k d ≫= cache_at rest
      end
  end.

Fixpoint cache_replace (keys : list Key) (obj : Cache) (root : Cache) : Cache :=
  match keys with
  | [] => obj
  | k :: rest =>
      match root with
      | Sock _ => root
      | Dict d =>
          match dict_get k d with
          | Some sub => Dict (dict_set k (cache_replace rest obj sub) d)
          | None => root
          end
      end
  end.

Fixpoint cache_delete (keys : list Key) (root : Cache) : Cache :=
  match keys with
  | [] => root
  | [k] =>
      match root with
      | Sock _ => root
      | Dict d => Dict (dict_del k d)
      end
  | k :: rest =>
      match root with
      | Sock _ => root
      | Dict d =>
          match dict_get k d with
          | Some sub => Dict (dict_set k (cache_delete rest sub) d)
          | None => root
          end
      end
  end.

(** [insert_cached_object]: walk [path] but its last key, creating the
    dictionaries that are missing, and store [obj] under the last key.  The
    cache is returned as the walk leaves it also when the walk raises. *)
Fixpoint insert_cached_object (root : Cache) (path : list Key) (obj : Cache)
  : result unit * Cache :=
  match path with
  | [] => (Raise (OtherException "IndexError"), root)
  | [key] =>
      match root with
      | Sock _ => (Raise (TypeError "item assignment"), root)
      | Dict d => (Ok (), Dict (dict_set key obj d))
      end
  | key :: rest =>
      match root with
      | Sock _ => (Raise (AttributeError "get"), root)
      | Dict d =>
          let new_dict := default (Dict []) (dict_get key d) in
          let '(r, new_dict') := insert_cached_object new_dict rest obj in
          (r, Dict (dict_set key new_dict' d))
      end
  end.

(** The transport: its two caches, and the descriptors registered with its
    retry thread (the keys of [_rthr_fdSources]). *)
Record t := mk {
  _tp_listen_sockets : Cache;
  _tp_connected_sockets : Cache;
  _rthr_fdSources : list Z
}.

Definition init : t :=
  {| _tp_listen_sockets := Dict []; _tp_connected_sockets := Dict [];
     _rthr_fdSources := [] |}.

Definition with_listen_sockets (c : Cache) (self : t) : t :=
  {| _tp_listen_sockets := c;
     _tp_connected_sockets := _tp_connected_sockets self;
     _rthr_fdSources := _rthr_fdSources self |}.

(** [RetryThread.addInputFD], on the descriptor table alone. *)
Definition addInputFD (fd : Z) (fds : list Z) : result unit * list Z :=
  if bool_decide (fd ∈ fds)
  then (Raise (ValueError "Duplicate FD source"), fds)
  else (Ok (), fds ++ [fd]).

(** [_add_socket_proxy], for the cache [root_dict] (one of the two caches of
    the transport); [path] is a path that an earlier lookup returned, given
    by its keys.  Answers the new cache and descriptor table. *)
Definition _add_socket_proxy (socket_proxy : SocketProxy) (root_dict : Cache)
    (find_tuple : Lookups) (path : list Key) (fds : list Z)
  : result unit * (Cache * list Z) :=
  let '(r, fds) :=
    match socket socket_proxy with
    | OSSocket fd => addInputFD fd fds
    | SharedProxy _ => (Ok (), fds)
    end in
  match r with
  | Raise e => (Raise e, (root_dict, fds))
  | Ok _ =>
      let socket_proxy := retain socket_proxy in
      let keys := fst <$> drop (length path) find_tuple in
      match cache_at path root_dict with
      | None =>
          (* the dictionary the path ended in has left the cache since: the
             proxy goes into that detached dictionary *)
          (Ok (), (root_dict, fds))
      | Some sub_root =>
          let '(r, sub_root') :=
            insert_cached_object sub_root keys (Sock socket_proxy) in
          (r, (cache_replace path sub_root' root_dict, fds))
      end
  end.

Definition add_listen_socket_proxy (listen_socket_proxy : SocketProxy)
    (self : t) : result unit * t :=
  let tpl :=
    convert_listen_description_into_find_tuple
      (local_address listen_socket_proxy) in
  let '(r, (c, fds)) :=
    _add_socket_proxy listen_socket_proxy (_tp_listen_sockets self) tpl []
      (_rthr_fdSources self) in
  (r, {| _tp_listen_sockets := c;
         _tp_connected_sockets := _tp_connected_sockets self;
         _rthr_fdSources := fds |}).

Definition add_connected_socket_proxy (socket_proxy : SocketProxy)
    (path : list Key) (self : t) : result unit * t :=
  let tpl :=
    convert_connected_address_description_into_find_tuple
      (local_address socket_proxy) in
  let '(r, (c, fds)) :=
    _add_socket_proxy socket_proxy (_tp_connected_sockets self) tpl path
      (_rthr_fdSources self) in
  (r, {| _tp_listen_sockets := _tp_listen_sockets self;
         _tp_connected_sockets := c;
         _rthr_fdSources := fds |}).

(** [release_listen_address].  The proxy found is released in place; when no
    holder remains, its key is deleted from the dictionary that holds it
    ([path[-2][1]]). *)
Definition release_listen_address (listen_address : ListenDescription)
    (self : t) : result unit * t :=
  match find_cached_object (_tp_listen_sockets self)
          (convert_listen_description_into_find_tuple listen_address) with
  | (Raise e, c) => (Raise e, with_listen_sockets c self)
  | (Ok (path, None), c) =>
      (Raise (KeyError "not a known ListenDescription"),
       with_listen_sockets c self)
  | (Ok (path, Some (Dict _)), c) =>
      (Raise (AttributeError "release"), with_listen_sockets c self)
  | (Ok (path, Some (Sock lsck)), c) =>
      let lsck := release lsck in
      let keys := fst <$> path in
      if negb (is_retained lsck)
      then (Ok (), with_listen_sockets (cache_delete keys c) self)
      else (Ok (), with_listen_sockets (cache_replace keys (Sock lsck) c) self)
  end.

Definition IsValidPortNum (port : Z) : bool := (0 <? port) && (port <=? 0xffff).

Definition fix_sock_type (sock_type : option SockType) : SockType :=
  default SOCK_DGRAM sock_type.

Section Listen.

(** The match of [IPaddress_re] against a name that is a string: which of
    its two groups matched, if any. *)
Variable IPaddress_family : string -> option SockFamily.

(** [ListenDescription.listen]: the operating system binds a socket for
    the description ([GetBoundSocket]) and the proxy of the bound socket is
    returned, its [local_address] read back from the socket, or an exception
    is raised. *)
Variable listen : ListenDescription -> result SocketProxy.

Definition IPAddressFamilyFromName (name : Name) : option SockFamily :=
  match name with
  | HostName s => IPaddress_family s
  | _ => None
  end.

Definition deduce_missing_values (self : ListenDescription) : ListenDescription :=
  let family :=
    match sock_family self with
    | None => IPAddressFamilyFromName (name self)
    | Some f => Some f
    end in
  let ip6 (v : option Z) : option Z :=
    if bool_decide (family = Some AF_INET6)
    then Some (default 0 v) else v in
  mkDesc family (sock_type self) (name self) (port self)
         (ip6 (flowinfo self)) (ip6 (scopeid self)) (port_filter self)
         (connected self) (remote_name self) (remote_port self).

(** Modelled from the spec: [DeepClass] (not part of the sources at hand)
    runs the [dck.check] of an attribute when it is set; an invalid port is a
    configuration error raised to the caller. *)
Definition new_ListenDescription (sock_family : option SockFamily)
    (sock_type : SockType) (name : Name) (port : Z)
    (flowinfo scopeid : option Z) (port_filter : option (Key -> bool))
  : result ListenDescription :=
  if negb (bool_decide (port = 0) || IsValidPortNum port)
  then Raise (ValueError "port")
  else Ok (mkDesc sock_family sock_type name port flowinfo scopeid port_filter
                  false None None).

Definition create_listen_socket (local_address : ListenDescription) (self : t)
  : result SocketProxy * t :=
  match listen local_address with
  | Raise e => (Raise e, self)
  | Ok lsck =>
      match add_listen_socket_proxy lsck self with
      | (Raise e, self) => (Raise e, self)
      | (Ok _, self) => (Ok (retain lsck), self)
      end
  end.

(** The first half of [listen_for_me]: the description that is looked up. *)
Definition provisional_laddr (sock_type : option SockType)
    (sock_family : option SockFamily) (name : Name) (port : Z)
    (port_filter : option (Key -> bool)) (flowinfo scopeid : option Z)
    (listen_description : option ListenDescription)
  : result ListenDescription :=
  match
    match listen_description with
    | None =>
        let sock_family :=
          match sock_family with
          | None => IPAddressFamilyFromName name
          | Some f => Some f
          end in
        let sock_type := fix_sock_type sock_type in
        new_ListenDescription sock_family sock_type name port flowinfo scopeid
                              port_filter
    | Some d => Ok d
    end
  with
  | Raise e => Raise e
  | Ok laddr => Ok (deduce_missing_values laddr)
  end.

(** [listen_for_me]; [callback] tells whether the callback passed is a
    [Callable]. *)
Definition listen_for_me (callback : bool) (sock_type : option SockType)
    (sock_family : option SockFamily) (name : Name) (port : Z)
    (port_filter : option (Key -> bool)) (flowinfo scopeid : option Z)
    (listen_description : option ListenDescription) (self : t)
  : result ListenDescription * t :=
  if negb callback then (Raise (TypeError "callback is not a Callable"), self)
  else
    match provisional_laddr sock_type sock_family name port port_filter
            flowinfo scopeid listen_description with
    | Raise e => (Raise e, self)
    | Ok provisional_laddr =>
        let tpl := convert_listen_description_into_find_tuple provisional_laddr in
        match find_cached_object (_tp_listen_sockets self) tpl with
        | (Raise e, c) => (Raise e, with_listen_sockets c self)
        | (Ok (path, Some lsck), c) =>
            (Raise SocketInUseError, with_listen_sockets c self)
        | (Ok (path, None), c) =>
            match create_listen_socket provisional_laddr
                    (with_listen_sockets c self) with
            | (Raise e, self) => (Raise e, self)
            | (Ok lsck, self) => (Ok (local_address lsck), self)
            end
        end
    end.

End Listen.

(** The walk of the resolution algorithm without its side effects: level by
    level, the exact key first and the finder of the level when the key is
    absent; the object reached by a walk of full depth. *)
Fixpoint resolve (root : Cache) (lookups : Lookups) : option Cache :=
  match lookups with
  | [] => Some root
  | (key, finder) :: rest =>
      match root with
      | Sock _ => None
      | Dict d =>
          match dict_get key d with
          | Some obj => resolve obj rest
          | None =>
              match finder with
              | None => None
              | Some finder =>
                  match finder d key with
                  | (_, Some obj) => resolve obj rest
                  | (_, None) => None
                  end
              end
          end
      end
  end.

Fixpoint items_vals (d : Items) : list SocketProxy :=
  match d with
  | [] => []
  | (_, val) :: rest => yield_vals val ++ items_vals rest
  end.

(** A finder is sound when the object it answers is an item of the
    dictionary it was given, or a new empty dictionary for the missing key. *)
Definition finder_sound (f : Finder) : Prop :=
  forall d k k' obj,
    dict_get k d = None -> f d k = (k', Some obj) ->
    dict_get k' d = Some obj \/ (k' = k /\ obj = Dict []).

Definition lookups_sound (lookups : Lookups) : Prop :=
  Forall (fun kf => forall f, kf.2 = Some f -> finder_sound f) lookups.

(** *** Dictionaries *)

Lemma yield_vals_Dict d : yield_vals (Dict d) = items_vals d.
Proof. induction d as [|[k v] d IH]; simpl in *; [|rewrite IH]; reflexivity. Qed.

Lemma yield_vals_Sock s : yield_vals (Sock s) = [s].
Proof. reflexivity. Qed.

#[global] Arguments yield_vals : simpl never.

Lemma dict_set_same k v d : dict_get k d = Some v -> dict_set k v d = d.
Proof.
  induction d as [|[k0 v0] d IH]; simpl; [discriminate|].
  destruct (decide (k0 = k)); [intros [= ->]; reflexivity|].
  intros H. rewrite IH by assumption. reflexivity.
Qed.

Lemma dict_get_set k v d : dict_get k (dict_set k v d) = Some v.
Proof.
  induction d as [|[k0 v0] d IH]; simpl.
  - rewrite decide_True; reflexivity.
  - destruct (decide (k0 = k)) as [E|E]; simpl.
    + rewrite decide_True; [reflexivity|assumption].
    + rewrite decide_False; assumption.
Qed.

(** Setting or deleting a key that is present touches the sockets of its
    value only. *)
Lemma items_vals_found k v d :
  dict_get k d = Some v ->
  exists pre post,
    items_vals d = pre ++ yield_vals v ++ post /\
    (forall v', items_vals (dict_set k v' d) = pre ++ yield_vals v' ++ post) /\
    items_vals (dict_del k d) = pre ++ post.
Proof.
  induction d as [|[k0 v0] d IH]; simpl; [discriminate|].
  destruct (decide (k0 = k)) as [E|E].
  - intros [= ->]. exists [], (items_vals d). simpl. auto.
  - intros H. destruct (IH H) as (pre & post & H1 & H2 & H3).
    exists (yield_vals v0 ++ pre), post. simpl.
    rewrite H1, H3. rewrite <- !app_assoc. split; [reflexivity|].
    split; [|reflexivity]. intros v'. rewrite H2, <- !app_assoc. reflexivity.
Qed.

Lemma items_vals_new k v d :
  dict_get k d = None ->
  items_vals (dict_set k v d) = items_vals d ++ yield_vals v.
Proof.
  induction d as [|[k0 v0] d IH]; simpl.
  - intros _. rewrite app_nil_r. reflexivity.
  - destruct (decide (k0 = k)); [discriminate|]. intros H. simpl.
    rewrite IH by assumption. rewrite app_assoc. reflexivity.
Qed.

Lemma items_vals_set_eq k v v' d :
  dict_get k d = Some v -> yield_vals v' = yield_vals v ->
  items_vals (dict_set k v' d) = items_vals d.
Proof.
  intros H E. destruct (items_vals_found _ _ _ H) as (pre & post & H1 & H2 & _).
  rewrite H2, H1, E. reflexivity.
Qed.

(** *** The finders *)

Lemma first_suitable_ok ok d k obj :
  first_suitable ok d = (k, Some obj) -> ok k = true /\ dict_get k d = Some obj.
Proof.
  induction d as [|[k0 v0] d IH]; simpl; [discriminate|].
  destruct (ok k0) eqn:E0.
  - intros [= <- <-]. rewrite decide_True; auto.
  - intros H. destruct (IH H) as [Hk Hg]. split; [assumption|].
    rewrite decide_False; [assumption|]. intros ->. congruence.
Qed.

Lemma new_dict_finder_sound : finder_sound new_dict_finder.
Proof. intros d k k' obj _ [= <- <-]. right. auto. Qed.

Lemma find_suitable_port_sound pfilter : finder_sound (find_suitable_port pfilter).
Proof.
  intros d k k' obj _. unfold find_suitable_port.
  destruct (negb _); [discriminate|].
  intros H. left. eapply first_suitable_ok, H.
Qed.

Lemma find_suitable_name_sound : finder_sound find_suitable_name.
Proof.
  intros d k k' obj _. unfold find_suitable_name.
  destruct (negb _); [discriminate|].
  intros H. left. eapply first_suitable_ok, H.
Qed.

Lemma find_suitable_flowinfo_or_scopeid_sound :
  finder_sound find_suitable_flowinfo_or_scopeid.
Proof.
  intros d k k' obj _. unfold find_suitable_flowinfo_or_scopeid.
  destruct (negb _); [discriminate|].
  intros H. left. eapply first_suitable_ok, H.
Qed.

Lemma listen_tuple_sound d :
  lookups_sound (convert_listen_description_into_find_tuple d).
Proof.
  unfold convert_listen_description_into_find_tuple, lookups_sound.
  destruct (bool_decide _); simpl;
    repeat (constructor; [intros f [= <-];
      auto using new_dict_finder_sound, find_suitable_port_sound,
        find_suitable_name_sound, find_suitable_flowinfo_or_scopeid_sound|]);
    constructor.
Qed.

Lemma listen_tuple_length d :
  length (convert_listen_description_into_find_tuple d) = 4%nat \/
  length (convert_listen_description_into_find_tuple d) = 6%nat.
Proof.
  unfold convert_listen_description_into_find_tuple.
  destruct (bool_decide _); simpl; auto.
Qed.

(** *** The walk *)

(** A path lies in a cache when each of its objects is the value of its key
    in the object before it. *)
Fixpoint path_in (root : Cache) (path : list (Key * Cache)) : Prop :=
  match path with
  | [] => True
  | (k, obj) :: rest =>
      match root with
      | Sock _ => False
      | Dict d => dict_get k d = Some obj /\ path_in obj rest
      end
  end.

Lemma yield_dict_path_in lookups : forall root path root',
  yield_dict_path root lookups = (Ok path, root') -> path_in root' path.
Proof.
  induction lookups as [|[key finder] rest IH]; intros root path root'; simpl.
  - intros [= <- <-]. exact I.
  - assert (Hy : forall k d obj,
      yielded k d (yield_dict_path obj rest) = (Ok path, root') ->
      path_in root' path).
    { intros k d obj. unfold yielded.
      destruct (yield_dict_path obj rest) as [[p|e] obj'] eqn:E; [|discriminate].
      intros [= <- <-]. simpl. split; [apply dict_get_set|]. eapply IH, E. }
    destruct root as [s|d]; [discriminate|].
    destruct (dict_get key d) as [obj|]; [apply Hy|].
    destruct finder as [f|]; [|intros [= <- <-]; exact I].
    destruct (f d key) as [k' [obj|]]; [apply Hy|intros [= <- <-]; exact I].
Qed.

Lemma path_in_at path : forall root,
  path_in root path -> path <> [] ->
  cache_at (fst <$> path) root = snd <$> last path.
Proof.
  induction path as [|[k obj] rest IH]; intros root; simpl; [congruence|].
  destruct root as [s|d]; [tauto|]. intros [Hg Hin] _.
  rewrite Hg. simpl. destruct rest as [|x rest]; [reflexivity|].
  rewrite IH by (assumption || discriminate). reflexivity.
Qed.

(** A walk never adds or removes a socket proxy. *)
Lemma yield_dict_path_vals lookups : forall root,
  lookups_sound lookups ->
  yield_vals (yield_dict_path root lookups).2 = yield_vals root.
Proof.
  induction lookups as [|[key finder] rest IH]; intros root Hs; simpl.
  - reflexivity.
  - inversion Hs as [|? ? Hf Hs']; subst.
    assert (Hy : forall k d obj,
      dict_get k d = Some obj ->
      yield_vals (yielded k d (yield_dict_path obj rest)).2 = items_vals d).
    { intros k d obj Hg. unfold yielded.
      specialize (IH obj Hs').
      destruct (yield_dict_path obj rest) as [[p|e] obj']; simpl in *;
        rewrite yield_vals_Dict; eapply items_vals_set_eq; eauto. }
    destruct root as [s|d]; [reflexivity|]. rewrite yield_vals_Dict.
    destruct (dict_get key d) as [obj|] eqn:Hg; [apply Hy, Hg|].
    destruct finder as [f|]; [|apply yield_vals_Dict].
    destruct (f d key) as [k' [obj|]] eqn:Ef; [|apply yield_vals_Dict].
    destruct (Hf f eq_refl d key k' obj Hg Ef) as [Hg'|[-> ->]].
    + rewrite (dict_set_same _ _ _ Hg'). apply Hy, Hg'.
    + rewrite Hy by apply dict_get_set.
      rewrite items_vals_new by assumption. simpl. apply app_nil_r.
Qed.

(** The walk of [yield_dict_path] has the full length exactly when the
    walk without side effects reaches an object, and then ends on it. *)
Lemma yield_dict_path_resolve lookups : forall root,
  match resolve root lookups with
  | Some obj =>
      exists path,
        (yield_dict_path root lookups).1 = Ok path /\
        length path = length lookups /\
        (lookups <> [] -> snd <$> last path = Some obj)
  | None =>
      (exists path, (yield_dict_path root lookups).1 = Ok path /\
                    (length path < length lookups)%nat) \/
      (exists e, (yield_dict_path root lookups).1 = Raise e /\
                 e <> SocketInUseError)
  end.
Proof.
  induction lookups as [|[key finder] rest IH]; intros root; simpl.
  - exists []. split; [reflexivity|]. split; [reflexivity|congruence].
  - assert (Hy : forall k d obj,
      match resolve obj rest with
      | Some o =>
          exists path,
            (yielded k d (yield_dict_path obj rest)).1 = Ok path /\
            length path = S (length rest) /\
            (((key, finder) :: rest) <> [] -> snd <$> last path = Some o)
      | None =>
          (exists path, (yielded k d (yield_dict_path obj rest)).1 = Ok path /\
                        (length path < S (length rest))%nat) \/
          (exists e, (yielded k d (yield_dict_path obj rest)).1 = Raise e /\
                     e <> SocketInUseError)
      end).
    { intros k d obj. specialize (IH obj). unfold yielded.
      destruct (resolve obj rest) as [o|] eqn:Er.
      - destruct IH as (p & Hp & Hl & Hlast).
        destruct (yield_dict_path obj rest) as [r obj'] eqn:E. simpl in Hp.
        subst r. exists ((k, obj') :: p). simpl.
        split; [reflexivity|]. split; [congruence|]. intros _.
        destruct rest as [|x rest'].
        + simpl in E, Er. injection E as <- <-. injection Er as <-.
          reflexivity.
        + destruct p as [|y p']; [discriminate|].
          rewrite last_cons_cons. apply Hlast. discriminate.
      - destruct (yield_dict_path obj rest) as [r obj'] eqn:E. simpl in IH.
        destruct IH as [(p & -> & Hl)|(e & -> & He)].
        + left. exists ((k, obj') :: p). simpl. split; [reflexivity|lia].
        + right. exists e. auto. }
    destruct root as [s|d].
    { right. eexists. split; [reflexivity|discriminate]. }
    destruct (dict_get key d) as [obj|]; [apply Hy|].
    destruct finder as [f|].
    2:{ left. exists []. simpl. split; [reflexivity|lia]. }
    destruct (f d key) as [k' [obj|]]; [apply Hy|].
    left. exists []. simpl. split; [reflexivity|lia].
Qed.

Lemma resolve_exact lookups : forall root obj,
  cache_at (fst <$> lookups) root = Some obj -> resolve root lookups = Some obj.
Proof.
  induction lookups as [|[key finder] rest IH]; intros root obj; simpl.
  - trivial.
  - destruct root as [s|d]; [discriminate|].
    destruct (dict_get key d) as [sub|]; simpl; [apply IH|discriminate].
Qed.

(** *** Mutation through a path *)

Lemma cache_vals_at keys : forall root s,
  keys <> [] -> cache_at keys root = Some (Sock s) ->
  exists l1 l2,
    yield_vals root = l1 ++ s :: l2 /\
    (forall s', yield_vals (cache_replace keys (Sock s') root) = l1 ++ s' :: l2) /\
    yield_vals (cache_delete keys root) = l1 ++ l2.
Proof.
  induction keys as [|k rest IH]; intros root s Hne; [congruence|].
  simpl cache_at. destruct root as [x|d]; [discriminate|].
  destruct (dict_get k d) as [sub|] eqn:Hg; [simpl|discriminate].
  intros Hat.
  destruct (items_vals_found _ _ _ Hg) as (pre & post & H1 & H2 & H3).
  destruct rest as [|k2 rest'].
  - simpl in Hat. injection Hat as ->.
    exists pre, post. rewrite yield_vals_Sock in *. simpl in H1, H2.
    split; [rewrite yield_vals_Dict; exact H1|]. split.
    + intros s'. simpl. rewrite Hg, yield_vals_Dict, H2. reflexivity.
    + simpl. rewrite yield_vals_Dict. exact H3.
  - destruct (IH sub s ltac:(discriminate) Hat) as (l1 & l2 & I1 & I2 & I3).
    exists (pre ++ l1), (l2 ++ post).
    split; [rewrite yield_vals_Dict, H1, I1, <- !app_assoc; reflexivity|].
    split.
    + intros s'.
      change (cache_replace (k :: k2 :: rest') (Sock s') (Dict d))
        with (match dict_get k d with
              | Some sub =>
                  Dict (dict_set k (cache_replace (k2 :: rest') (Sock s') sub) d)
              | None => Dict d
              end).
      rewrite Hg, yield_vals_Dict, H2, I2, <- !app_assoc. reflexivity.
    + change (cache_delete (k :: k2 :: rest') (Dict d))
        with (match dict_get k d with
              | Some sub => Dict (dict_set k (cache_delete (k2 :: rest') sub) d)
              | None => Dict d
              end).
      rewrite Hg, yield_vals_Dict, H2, I3, <- !app_assoc. reflexivity.
Qed.

Lemma insert_cached_object_at path : forall root obj root',
  insert_cached_object root path obj = (Ok (), root') ->
  cache_at path root' = Some obj.
Proof.
  induction path as [|k rest IH]; intros root obj root'; [discriminate|].
  destruct rest as [|k2 rest'].
  - simpl. destruct root as [s|d]; [discriminate|]. intros [= <-].
    simpl. rewrite dict_get_set. reflexivity.
  - change (insert_cached_object root (k :: k2 :: rest') obj)
      with (match root with
            | Sock _ => (Raise (AttributeError "get"), root)
            | Dict d =>
                let new_dict := default (Dict []) (dict_get k d) in
                let '(r, new_dict') :=
                  insert_cached_object new_dict (k2 :: rest') obj in
                (r, Dict (dict_set k new_dict' d))
            end).
    destruct root as [s|d]; [discriminate|]. cbv zeta.
    destruct (insert_cached_object _ (k2 :: rest') obj) as [r nd] eqn:E.
    intros [= -> <-]. simpl cache_at. rewrite dict_get_set. simpl.
    eapply IH, E.
Qed.

Lemma insert_cached_object_exn path : forall root obj e,
  (insert_cached_object root path obj).1 = Raise e -> e <> SocketInUseError.
Proof.
  induction path as [|k rest IH]; intros root obj e.
  - simpl. intros [= <-]. discriminate.
  - destruct rest as [|k2 rest'].
    + simpl. destruct root; simpl; [intros [= <-]|]; discriminate.
    + change (insert_cached_object root (k :: k2 :: rest') obj)
        with (match root with
              | Sock _ => (Raise (AttributeError "get"), root)
              | Dict d =>
                  let new_dict := default (Dict []) (dict_get k d) in
                  let '(r, new_dict') :=
                    insert_cached_object new_dict (k2 :: rest') obj in
                  (r, Dict (dict_set k new_dict' d))
              end).
      destruct root as [s|d]; [simpl; intros [= <-]; discriminate|]. cbv zeta.
      specialize (IH (default (Dict []) (dict_get k d)) obj e).
      destruct (insert_cached_object _ (k2 :: rest') obj) as [r nd].
      exact IH.
Qed.

(** *** Lookups with the find tuple of a listen description *)

Lemma find_cached_object_resolve c d :
  let tpl := convert_listen_description_into_find_tuple d in
  match resolve c tpl with
  | Some obj =>
      exists path,
        (find_cached_object c tpl).1 = Ok (path, Some obj) /\
        length path = length tpl /\
        cache_at (fst <$> path) (find_cached_object c tpl).2 = Some obj
  | None =>
      (exists path, (find_cached_object c tpl).1 = Ok (path, None)) \/
      (exists e, (find_cached_object c tpl).1 = Raise e /\ e <> SocketInUseError)
  end.
Proof.
  intros tpl. pose proof (yield_dict_path_resolve tpl c) as H.
  pose proof (yield_dict_path_in tpl c) as Hin.
  assert (Hlen : length tpl = 4%nat \/ length tpl = 6%nat)
    by apply listen_tuple_length.
  assert (Hne : tpl <> []) by (intros E; rewrite E in Hlen; simpl in Hlen; lia).
  unfold find_cached_object.
  destruct (yield_dict_path c tpl) as [r c'] eqn:E. simpl in H.
  destruct (resolve c tpl) as [obj|].
  - destruct H as (path & -> & Hl & Hlast). exists path.
    assert (Hp : path <> []) by (intros ->; simpl in Hl; lia).
    rewrite (bool_decide_eq_false_2 (length tpl = 8%nat)) by lia.
    rewrite andb_false_r.
    rewrite (bool_decide_eq_true_2 (length path ≤ length tpl)%nat) by lia.
    rewrite (bool_decide_eq_true_2 (length path = length tpl)) by assumption.
    simpl. rewrite (Hlast Hne). split; [reflexivity|]. split; [assumption|].
    rewrite (path_in_at path c' (Hin _ _ eq_refl) Hp). apply Hlast, Hne.
  - destruct H as [(path & -> & Hl)|(e & -> & He)].
    + left. exists path.
      rewrite (bool_decide_eq_false_2 (length tpl = 8%nat)) by lia.
      rewrite andb_false_r.
      rewrite (bool_decide_eq_true_2 (length path ≤ length tpl)%nat) by lia.
      rewrite (bool_decide_eq_false_2 (length path = length tpl)) by lia.
      reflexivity.
    + right. exists e. auto.
Qed.

Lemma find_cached_object_vals c lookups :
  lookups_sound lookups ->
  yield_vals (find_cached_object c lookups).2 = yield_vals c.
Proof.
  intros Hs. pose proof (yield_dict_path_vals lookups c Hs) as H.
  unfold find_cached_object.
  destruct (yield_dict_path c lookups) as [[path|e] c']; simpl in *;
    [|assumption].
  repeat (match goal with |- context [if ?b then _ else _] => destruct b end);
    assumption.
Qed.

Lemma cache_delete_prefix keys : forall root obj,
  cache_at keys root = Some obj -> keys <> [] ->
  is_Some (cache_at (removelast keys) (cache_delete keys root)).
Proof.
  induction keys as [|k rest IH]; intros root obj Hat Hne; [congruence|].
  destruct rest as [|k2 rest'].
  - simpl. eauto.
  - simpl cache_at in Hat. destruct root as [x|d]; [discriminate|].
    destruct (dict_get k d) as [sub|] eqn:Hg; [simpl in Hat|discriminate].
    change (cache_delete (k :: k2 :: rest') (Dict d))
      with (match dict_get k d with
            | Some sub => Dict (dict_set k (cache_delete (k2 :: rest') sub) d)
            | None => Dict d
            end).
    rewrite Hg.
    change (removelast (k :: k2 :: rest')) with (k :: removelast (k2 :: rest')).
    simpl cache_at. rewrite dict_get_set. simpl.
    eapply IH; [exact Hat|discriminate].
Qed.

Lemma _add_socket_proxy_exn socket_proxy root_dict find_tuple path fds e :
  (_add_socket_proxy socket_proxy root_dict find_tuple path fds).1 = Raise e ->
  e <> SocketInUseError.
Proof.
  unfold _add_socket_proxy.
  assert (Hfd : forall r fds', match socket socket_proxy with
                    | OSSocket fd => addInputFD fd fds
                    | SharedProxy _ => (Ok (), fds)
                    end = (Raise r, fds') -> r <> SocketInUseError).
  { intros r fds'. destruct (socket socket_proxy); [|discriminate].
    unfold addInputFD. destruct (bool_decide _); [|discriminate].
    intros [= <- _]. discriminate. }
  destruct (match socket socket_proxy with
            | OSSocket fd => addInputFD fd fds
            | SharedProxy _ => (Ok (), fds)
            end) as [[u|r] fds'] eqn:E.
  - destruct (cache_at path root_dict) as [sub_root|]; [|discriminate].
    pose proof (insert_cached_object_exn
      (fst <$> drop (length path) find_tuple) sub_root
      (Sock (retain socket_proxy)) e) as Hi.
    destruct (insert_cached_object _ _ _) as [r' c']. exact Hi.
  - simpl. intros [= <-]. eapply Hfd. reflexivity.
Qed.

Lemma add_listen_socket_proxy_exn lsck self e :
  (add_listen_socket_proxy lsck self).1 = Raise e -> e <> SocketInUseError.
Proof.
  unfold add_listen_socket_proxy.
  pose proof (_add_socket_proxy_exn lsck (_tp_listen_sockets self)
    (convert_listen_description_into_find_tuple (local_address lsck)) []
    (_rthr_fdSources self) e) as H.
  destruct (_add_socket_proxy _ _ _ _ _) as [r [c fds]]. exact H.
Qed.

Lemma create_listen_socket_exn listen laddr self e :
  listen laddr <> Raise SocketInUseError ->
  (create_listen_socket listen laddr self).1 = Raise e ->
  e <> SocketInUseError.
Proof.
  unfold create_listen_socket. intros Hl.
  destruct (listen laddr) as [lsck|e'].
  - pose proof (add_listen_socket_proxy_exn lsck self e) as H.
    destruct (add_listen_socket_proxy lsck self) as [[u|e''] self''];
      simpl in *; [discriminate|].
    intros [= <-]. apply H. reflexivity.
  - simpl. intros [= <-] ->. congruence.
Qed.

(** *** A host to run the examples on *)

(** Every name that is a string is the literal of an IPv4 address. *)
Definition ipv4_literals (s : string) : option SockFamily := Some AF_INET.

(** The operating system binds the address asked for, on descriptor 7; a
    request for port 0 gets the first unregistered port. *)
Definition bind_any (d : ListenDescription) : result SocketProxy :=
  Ok (mkProxy
        (mkDesc (sock_family d) (sock_type d) (name d)
                (if port d =? 0 then 49152 else port d)
                (flowinfo d) (scopeid d) None false None None)
        (OSSocket 7) false 0).

Definition listen_on (name : Name) (port : Z) (self : t)
  : result ListenDescription * t :=
  listen_for_me ipv4_literals bind_any true None None name port None None None
                None self.

Example listen_on_first :
  (listen_on (HostName "127.0.0.1") 0 init).1
  = Ok (mkDesc (Some AF_INET) SOCK_DGRAM (HostName "127.0.0.1") 49152
               None None None false None None).
Proof. reflexivity. Qed.

(** *** Socket in use *)

(** C9, as the code has it.  With a callable callback and a description
    that passes its checks, and an operating system that does not itself
    raise [SocketInUseError], [listen_for_me] raises [SocketInUseError]
    exactly when the lookup reaches an object at full depth, each level
    matched by its exact key or, where that key is absent, by the wildcard
    finder of the level.  In particular it raises when the exact tuple of
    the description is in the cache. *)
Theorem listen_for_me_in_use
    (IPaddress_family : string -> option SockFamily)
    (listen : ListenDescription -> result SocketProxy)
    (sock_type : option SockType) (sock_family : option SockFamily)
    (name : Name) (port : Z) (port_filter : option (Key -> bool))
    (flowinfo scopeid : option Z)
    (listen_description : option ListenDescription)
    (self : t) (laddr : ListenDescription) :
  provisional_laddr IPaddress_family sock_type sock_family name port
    port_filter flowinfo scopeid listen_description = Ok laddr ->
  listen laddr <> Raise SocketInUseError ->
  let tpl := convert_listen_description_into_find_tuple laddr in
  let r :=
    (listen_for_me IPaddress_family listen true sock_type sock_family name
       port port_filter flowinfo scopeid listen_description self).1 in
  (r = Raise SocketInUseError <->
   is_Some (resolve (_tp_listen_sockets self) tpl)) /\
  (is_Some (cache_at (fst <$> tpl) (_tp_listen_sockets self)) ->
   r = Raise SocketInUseError).
Proof.
  intros Hp Hl tpl r.
  assert (Hiff : r = Raise SocketInUseError <->
                 is_Some (resolve (_tp_listen_sockets self) tpl)).
  { subst r. unfold listen_for_me. simpl negb. cbv iota. rewrite Hp.
    fold tpl.
    pose proof (find_cached_object_resolve (_tp_listen_sockets self) laddr)
      as H.
    cbv zeta in H. fold tpl in H.
    destruct (find_cached_object (_tp_listen_sockets self) tpl) as [fr c].
    simpl in H.
    destruct (resolve (_tp_listen_sockets self) tpl) as [obj|].
    - destruct H as (path & -> & _). simpl. split; eauto.
    - split; [|intros [? [=]]]. intros Hr. exfalso.
      destruct H as [(path & ->)|(e & -> & He)].
      + pose proof (create_listen_socket_exn listen laddr
          (with_listen_sockets c self) SocketInUseError Hl) as Hc.
        destruct (create_listen_socket listen laddr _) as [[lsck|e] self'];
          simpl in *; [discriminate|].
        injection Hr as ->. apply Hc; reflexivity.
      + simpl in Hr. congruence. }
  split; [exact Hiff|].
  intros [obj Hat]. apply Hiff. rewrite (resolve_exact _ _ _ Hat). eauto.
Qed.

(** After one listen on 127.0.0.1:5060. *)
Definition one_listener : t := (listen_on (HostName "127.0.0.1") 5060 init).2.

Lemma listen_for_me_in_use_witness :
  (listen_on (HostName "127.0.0.1") 5060 one_listener).1
  = Raise SocketInUseError.
Proof.
  refine (proj2 (listen_for_me_in_use ipv4_literals bind_any None None
            (HostName "127.0.0.1") 5060 None None None None one_listener
            (mkDesc (Some AF_INET) SOCK_DGRAM (HostName "127.0.0.1") 5060
                    None None None false None None) _ _) _).
  - reflexivity.
  - discriminate.
  - vm_compute. eauto.
Defined.

(** C9, as stated, fails: a request for port 0, a wildcard, raises
    [SocketInUseError] although the cache holds no entry for its exact
    tuple; the port finder has matched it to the socket bound earlier. *)
Lemma listen_for_me_wildcard_in_use :
  let self := (listen_on (HostName "127.0.0.1") 0 init).2 in
  cache_at [KFamily AF_INET; KType SOCK_DGRAM; KName (HostName "127.0.0.1");
            KInt 0] (_tp_listen_sockets self) = None /\
  (listen_on (HostName "127.0.0.1") 0 self).1 = Raise SocketInUseError.
Proof. split; reflexivity. Qed.

(** *** What lookups and releases do to the cache *)

Lemma add_listen_socket_proxy_at lsck self self' :
  add_listen_socket_proxy lsck self = (Ok (), self') ->
  cache_at
    (fst <$> convert_listen_description_into_find_tuple (local_address lsck))
    (_tp_listen_sockets self')
  = Some (Sock (retain lsck)).
Proof.
  unfold add_listen_socket_proxy, _add_socket_proxy.
  set (tpl := convert_listen_description_into_find_tuple (local_address lsck)).
  destruct (match socket lsck with
            | OSSocket fd => addInputFD fd (_rthr_fdSources self)
            | SharedProxy _ => (Ok (), _rthr_fdSources self)
            end) as [[u|e] fds]; [|discriminate].
  simpl cache_at. simpl length. rewrite drop_0.
  destruct (insert_cached_object (_tp_listen_sockets self) (fst <$> tpl)
              (Sock (retain lsck))) as [r c] eqn:E.
  intros [= -> <-]. simpl. eapply insert_cached_object_at, E.
Qed.

(** *** What a found path, an insertion and a deletion do *)






(** Inserting a socket proxy under keys that lead nowhere adds that proxy
    and leaves every other. *)
Lemma insert_cached_object_vals path : forall root s root',
  insert_cached_object root path (Sock s) = (Ok (), root') ->
  cache_at path root = None ->
  yield_vals root' ≡ₚ s :: yield_vals root.
Proof.
  induction path as [|k rest IH]; intros root s root'; [discriminate|].
  destruct rest as [|k2 rest'].
  - simpl. destruct root as [x|d]; [discriminate|]. intros [= <-].
    destruct (dict_get k d) as [sub|] eqn:Hg; [discriminate|]. intros _.
    rewrite !yield_vals_Dict, (items_vals_new _ _ _ Hg), yield_vals_Sock.
    symmetry. apply Permutation_cons_append.
  - change (insert_cached_object root (k :: k2 :: rest') (Sock s))
      with (match root with
            | Sock _ => (Raise (AttributeError "get"), root)
            | Dict d =>
                let new_dict := default (Dict []) (dict_get k d) in
                let '(r, new_dict') :=
                  insert_cached_object new_dict (k2 :: rest') (Sock s) in
                (r, Dict (dict_set k new_dict' d))
            end).
    destruct root as [x|d]; [discriminate|]. cbv zeta.
    destruct (insert_cached_object _ (k2 :: rest') (Sock s)) as [r nd] eqn:E.
    intros [= -> <-]. simpl cache_at.
    destruct (dict_get k d) as [sub|] eqn:Hg; simpl in E |- *.
    + intros Hat. specialize (IH sub s nd E Hat).
      destruct (items_vals_found _ _ _ Hg) as (pre & post & H1 & H2 & _).
      rewrite !yield_vals_Dict, H1, H2, IH.
      change ((s :: yield_vals sub) ++ post) with (s :: yield_vals sub ++ post).
      symmetry. apply Permutation_middle.
    + intros _. assert (Hnil : cache_at (k2 :: rest') (Dict []) = None)
        by reflexivity.
      specialize (IH (Dict []) s nd E Hnil).
      rewrite !yield_vals_Dict, (items_vals_new _ _ _ Hg), IH.
      rewrite yield_vals_Dict. simpl.
      symmetry. apply Permutation_cons_append.
Qed.







(** A second proxy for the address of a listener, on another descriptor,
    takes its place in the cache: the first proxy is no longer held. *)
Example addition_replaces_same_keys :
  let d := mkDesc (Some AF_INET) SOCK_DGRAM (HostName "127.0.0.1") 5060
                  None None None false None None in
  yield_vals (_tp_listen_sockets one_listener)
  = [mkProxy d (OSSocket 7) false 1] /\
  (add_listen_socket_proxy (mkProxy d (OSSocket 8) false 0) one_listener).1
  = Ok () /\
  yield_vals (_tp_listen_sockets
                (add_listen_socket_proxy (mkProxy d (OSSocket 8) false 0)
                   one_listener).2)
  = [mkProxy d (OSSocket 8) false 1].
Proof. repeat split. Qed.


(** *** The descriptors registered with the retry thread *)

Definition addInputFDs (fds : list Z) (table : list Z) : list Z :=
  foldl (fun table fd => (addInputFD fd table).2) table fds.

(** X4. [addInputFD] refuses a descriptor that is registered, with [ValueError]
    and the table as it was, and so, whatever is added in whatever order,
    no descriptor is ever in the table twice. *)
Theorem addInputFD_no_duplicates (fds : list Z) (fd : Z) :
  let table := addInputFDs fds [] in
  NoDup table /\
  (fd ∈ table ->
   addInputFD fd table = (Raise (ValueError "Duplicate FD source"), table)) /\
  (fd ∉ table -> addInputFD fd table = (Ok (), table ++ [fd])).
Proof.
  intros table.
  assert (Hnd : forall fds table, NoDup table -> NoDup (addInputFDs fds table)).
  { clear. induction fds as [|x fds IH]; intros table Hn; simpl; [assumption|].
    apply IH. unfold addInputFD. case_bool_decide; simpl; [assumption|].
    apply NoDup_app. split; [assumption|].
    split; [|apply NoDup_singleton].
    intros y Hy Hy'. apply list_elem_of_singleton in Hy'. congruence. }
  split; [apply Hnd; constructor|].
  unfold addInputFD.
  split; intros H; [rewrite bool_decide_eq_true_2|rewrite bool_decide_eq_false_2];
    auto.
Qed.

Lemma addInputFD_no_duplicates_witness :
  addInputFD 8 (addInputFDs [7; 8; 7] [])
  = (Raise (ValueError "Duplicate FD source"), addInputFDs [7; 8; 7] []).
Proof.
  apply (proj1 (proj2 (addInputFD_no_duplicates [7; 8; 7] 8))).
  eapply bool_decide_eq_true_1. reflexivity.
Defined.

(** *** Ports from the unregistered range *)

Definition first_unregistered_port : Z := 49152.

(** One turn of the loop of [UnregisteredPortGenerator], for the global
    [next_port] and the [start_port] the generator has noted: the port it
    yields (when the filter lets it through), the new [next_port], and
    whether the loop goes on. *)
Definition port_turn (port_filter : option (Z -> bool))
    (start_port next_port : Z) : option Z * Z * bool :=
  let yielded :=
    if match port_filter with None => true | Some f => f next_port end
    then Some next_port else None in
  let next_port := next_port + 1 in
  let next_port :=
    if next_port >? 0xffff then first_unregistered_port else next_port in
  (yielded, next_port, negb (bool_decide (next_port = start_port))).

(** The generator run until it ends, or for [turns] turns: the ports
    yielded and the global [next_port] it leaves. *)
Fixpoint port_turns (turns : nat) (port_filter : option (Z -> bool))
    (start_port next_port : Z) : list Z * Z :=
  match turns with
  | O => ([], next_port)
  | S turns =>
      let '(yielded, next_port, go_on) :=
        port_turn port_filter start_port next_port in
      let '(ports, last) :=
        if go_on then port_turns turns port_filter start_port next_port
        else ([], next_port) in
      (from_option (fun p => p :: ports) ports yielded, last)
  end.

Definition UnregisteredPortGenerator (turns : nat)
    (port_filter : option (Z -> bool)) (next_port : Z) : list Z * Z :=
  port_turns turns port_filter next_port next_port.

Example UnregisteredPortGenerator_ex :
  (UnregisteredPortGenerator 4 None 65534).1 = [65534; 65535; 49152; 49153].
Proof. reflexivity. Qed.

Definition unregistered (port : Z) : Prop :=
  first_unregistered_port <= port <= 0xffff.

Lemma port_turn_range port_filter start_port next_port :
  unregistered next_port ->
  unregistered (port_turn port_filter start_port next_port).1.2 /\
  forall p, (port_turn port_filter start_port next_port).1.1 = Some p ->
            p = next_port.
Proof.
  unfold unregistered, port_turn, first_unregistered_port. intros H. simpl.
  split.
  - destruct (next_port + 1 >? 65535) eqn:E; [lia|].
    rewrite Z.gtb_ltb in E. apply Z.ltb_ge in E. lia.
  - intros p. destruct (match port_filter with
                        | Some f => f next_port | None => true end);
      [intros [= <-]; reflexivity|discriminate].
Qed.

Lemma port_turns_range turns port_filter start_port : forall next_port,
  unregistered next_port ->
  Forall unregistered (port_turns turns port_filter start_port next_port).1 /\
  unregistered (port_turns turns port_filter start_port next_port).2.
Proof.
  induction turns as [|turns IH]; intros next_port H; cbn [port_turns];
    [simpl; auto|].
  destruct (port_turn_range port_filter start_port next_port H) as [Hn Hy].
  destruct (port_turn port_filter start_port next_port) as [[y n] go] eqn:E.
  simpl in Hn, Hy. specialize (IH n Hn).
  destruct (if go then port_turns turns port_filter start_port n else ([], n))
    as [ports last] eqn:G.
  assert (Forall unregistered ports /\ unregistered last) as [Hp Hl].
  { destruct go; [rewrite G in IH; exact IH|].
    injection G as <- <-. auto. }
  simpl. split; [|assumption].
  destruct y as [p|]; simpl; [|assumption].
  constructor; [rewrite (Hy p eq_refl); assumption|assumption].
Qed.

(** X5. Started with [next_port] in the unregistered range, the generator
    only yields ports of the range and leaves [next_port] in the range,
    however long it is run and whatever the filter. *)
Theorem UnregisteredPortGenerator_range (turns : nat)
    (port_filter : option (Z -> bool)) (next_port : Z) :
  unregistered next_port ->
  Forall unregistered (UnregisteredPortGenerator turns port_filter next_port).1
  /\ unregistered (UnregisteredPortGenerator turns port_filter next_port).2.
Proof. apply port_turns_range. Qed.

Lemma UnregisteredPortGenerator_range_witness :
  Forall unregistered (UnregisteredPortGenerator 4 None 65534).1.
Proof.
  apply (UnregisteredPortGenerator_range 4 None 65534).
  unfold unregistered, first_unregistered_port. lia.
Defined.

Lemma port_turn_inside start_port next_port :
  next_port < 0xffff -> next_port + 1 <> start_port ->
  port_turn None start_port next_port = (Some next_port, next_port + 1, true).
Proof.
  intros H1 H2. unfold port_turn. cbv zeta.
  replace (next_port + 1 >? 65535) with false
    by (symmetry; rewrite Z.gtb_ltb; apply Z.ltb_ge; lia).
  rewrite bool_decide_eq_false_2 by assumption. reflexivity.
Qed.

Lemma port_turn_last start_port next_port :
  next_port < 0xffff -> next_port + 1 = start_port ->
  port_turn None start_port next_port = (Some next_port, start_port, false).
Proof.
  intros H1 H2. unfold port_turn. cbv zeta.
  replace (next_port + 1 >? 65535) with false
    by (symmetry; rewrite Z.gtb_ltb; apply Z.ltb_ge; lia).
  rewrite bool_decide_eq_true_2 by assumption. rewrite H2. reflexivity.
Qed.

Lemma port_turn_wrap start_port :
  port_turn None start_port 0xffff
  = (Some 0xffff, first_unregistered_port,
     negb (bool_decide (first_unregistered_port = start_port))).
Proof. reflexivity. Qed.

(** The second leg of a round: from a port below [start_port] up to it. *)
Lemma port_turns_up_to turns start_port : forall next_port,
  next_port < start_port <= 0xffff ->
  (start_port - next_port <= Z.of_nat turns) ->
  port_turns turns None start_port next_port
  = (seqZ next_port (start_port - next_port), start_port).
Proof.
  induction turns as [|turns IH]; intros next_port H Ht; [lia|].
  cbn [port_turns].
  destruct (decide (next_port + 1 = start_port)) as [E|E].
  - rewrite port_turn_last by lia.
    replace (start_port - next_port) with 1 by lia. reflexivity.
  - rewrite port_turn_inside by lia.
    rewrite IH by lia. simpl.
    rewrite (seqZ_cons next_port) by lia.
    repeat f_equal; lia.
Qed.

(** The first leg: from [start_port] or above to the end of the range, and
    then from the start of the range. *)
Lemma port_turns_round turns start_port : forall next_port,
  first_unregistered_port <= start_port <= next_port -> next_port <= 0xffff ->
  (0x10000 - next_port) + (start_port - first_unregistered_port)
  <= Z.of_nat turns ->
  port_turns turns None start_port next_port
  = (seqZ next_port (0x10000 - next_port)
     ++ seqZ first_unregistered_port (start_port - first_unregistered_port),
     start_port).
Proof.
  induction turns as [|turns IH]; intros next_port H Hn Ht; [lia|].
  cbn [port_turns].
  destruct (decide (next_port = 0xffff)) as [->|E].
  - rewrite port_turn_wrap.
    destruct (decide (first_unregistered_port = start_port)) as [<-|E].
    + rewrite bool_decide_eq_true_2 by reflexivity. reflexivity.
    + rewrite bool_decide_eq_false_2 by assumption. cbn [negb].
      rewrite port_turns_up_to by lia. reflexivity.
  - rewrite port_turn_inside by lia.
    rewrite IH by lia. simpl.
    rewrite (seqZ_cons next_port) by lia.
    replace (Z.succ next_port) with (next_port + 1) by lia.
    replace (Z.pred (65536 - next_port)) with (65536 - (next_port + 1))
      by lia.
    reflexivity.
Qed.

(** X6. Started in the unregistered range and not filtered, the generator, run
    to its end, yields every port of the range once: from [next_port] up to
    65535, then from 49152 up to where it started; and it leaves [next_port]
    where it started.  16384 turns are enough, and more yield no more. *)
Theorem UnregisteredPortGenerator_round (turns : nat) (next_port : Z) :
  unregistered next_port -> 16384 <= Z.of_nat turns ->
  UnregisteredPortGenerator turns None next_port
  = (seqZ next_port (0x10000 - next_port)
     ++ seqZ first_unregistered_port (next_port - first_unregistered_port),
     next_port).
Proof.
  unfold unregistered, UnregisteredPortGenerator, first_unregistered_port.
  intros H Ht. apply port_turns_round; unfold first_unregistered_port; lia.
Qed.

Lemma UnregisteredPortGenerator_round_witness :
  Z.of_nat (length (UnregisteredPortGenerator (Z.to_nat 20000) None 50000).1)
  = 16384.
Proof.
  rewrite (UnregisteredPortGenerator_round (Z.to_nat 20000) 50000).
  - cbn [fst]. rewrite length_app, !length_seqZ.
    unfold first_unregistered_port. lia.
  - unfold unregistered, first_unregistered_port. lia.
  - lia.
Defined.

(** *** Lookups that find, and what insertion adds *)

Lemma yield_dict_path_exact lookups : forall root obj,
  cache_at (fst <$> lookups) root = Some obj ->
  exists path,
    yield_dict_path root lookups = (Ok path, root) /\
    fst <$> path = fst <$> lookups /\
    (lookups <> [] -> snd <$> last path = Some obj).
Proof.
  induction lookups as [|[key finder] rest IH]; intros root obj; simpl.
  - intros _. exists []. split; [reflexivity|]. split; [reflexivity|congruence].
  - destruct root as [s|d]; [discriminate|].
    destruct (dict_get key d) as [sub|] eqn:Hg; [simpl|discriminate].
    intros Hat. destruct (IH sub obj Hat) as (path & Hy & Hk & Hl).
    rewrite Hy. unfold yielded. rewrite (dict_set_same _ _ _ Hg).
    exists ((key, sub) :: path). split; [reflexivity|].
    split; [simpl; f_equal; exact Hk|]. intros _.
    destruct rest as [|x rest'].
    + simpl in Hy, Hat. injection Hy as <-. injection Hat as <-. reflexivity.
    + destruct path as [|y path']; [discriminate|].
      rewrite last_cons_cons. apply Hl. discriminate.
Qed.

Lemma find_cached_object_exact c lookups obj :
  lookups <> [] -> cache_at (fst <$> lookups) c = Some obj ->
  exists path,
    find_cached_object c lookups = (Ok (path, Some obj), c) /\
    fst <$> path = fst <$> lookups.
Proof.
  intros Hne Hat.
  destruct (yield_dict_path_exact lookups c obj Hat) as (path & Hy & Hk & Hl).
  exists path. split; [|exact Hk]. unfold find_cached_object. rewrite Hy.
  assert (Hlen : length path = length lookups).
  { rewrite <- (length_fmap fst path), Hk, length_fmap. reflexivity. }
  rewrite Hlen.
  destruct (decide (length lookups = 7%nat)) as [E|E].
  - rewrite (bool_decide_eq_false_2 (length lookups = 8%nat)) by lia.
    rewrite andb_false_r.
    rewrite bool_decide_eq_true_2 by lia.
    rewrite bool_decide_eq_true_2 by reflexivity.
    simpl. rewrite (Hl Hne). reflexivity.
  - rewrite (bool_decide_eq_false_2 (length lookups = 7%nat)) by assumption.
    rewrite andb_false_l.
    rewrite bool_decide_eq_true_2 by lia.
    rewrite bool_decide_eq_true_2 by reflexivity.
    simpl. rewrite (Hl Hne). reflexivity.
Qed.

Lemma find_cached_object_found c lookups path obj c' :
  find_cached_object c lookups = (Ok (path, Some obj), c') ->
  path <> [] /\ cache_at (fst <$> path) c' = Some obj.
Proof.
  unfold find_cached_object.
  pose proof (yield_dict_path_in lookups c) as Hin.
  destruct (yield_dict_path c lookups) as [[p|e] c1]; [|discriminate].
  specialize (Hin p c1 eq_refl).
  destruct (_ && _); [discriminate|].
  destruct (negb _); [discriminate|].
  destruct (bool_decide _); [|discriminate].
  intros [= <- Hl <-].
  assert (Hp : p <> []) by (intros ->; discriminate).
  split; [exact Hp|]. rewrite (path_in_at p c1 Hin Hp). exact Hl.
Qed.

Lemma listen_tuple_nonempty d :
  convert_listen_description_into_find_tuple d <> [].
Proof.
  intros E. destruct (listen_tuple_length d) as [H|H];
    rewrite E in H; discriminate.
Qed.

Lemma find_cached_object_listen lsck c :
  cache_at
    (fst <$> convert_listen_description_into_find_tuple (local_address lsck)) c
  = Some (Sock (retain lsck)) ->
  exists path,
    find_cached_object c
      (convert_listen_description_into_find_tuple (local_address lsck))
    = (Ok (path, Some (Sock (retain lsck))), c).
Proof.
  intros H.
  destruct (find_cached_object_exact _ _ _
              (listen_tuple_nonempty (local_address lsck)) H) as (path & Hf & _).
  exists path. exact Hf.
Qed.

(** X7. A listen socket that was added is found by a lookup with its own
    description, retained once more than it came, and the lookup leaves the
    cache as it is. *)
Theorem added_listen_socket_is_found (lsck : SocketProxy) (self self' : t) :
  add_listen_socket_proxy lsck self = (Ok (), self') ->
  exists path,
    find_cached_object (_tp_listen_sockets self')
      (convert_listen_description_into_find_tuple (local_address lsck))
    = (Ok (path, Some (Sock (retain lsck))), _tp_listen_sockets self').
Proof.
  intros H. apply find_cached_object_listen.
  apply (add_listen_socket_proxy_at lsck self self' H).
Qed.

(** A proxy bound on 127.0.0.1:5060, as the operating system hands it
    over. *)
Definition bound_5060 : SocketProxy :=
  mkProxy (mkDesc (Some AF_INET) SOCK_DGRAM (HostName "127.0.0.1") 5060
                  None None None false None None)
          (OSSocket 7) false 0.

Lemma added_listen_socket_is_found_witness :
  exists path self',
    find_cached_object (_tp_listen_sockets self')
      (convert_listen_description_into_find_tuple (local_address bound_5060))
    = (Ok (path, Some (Sock (retain bound_5060))), _tp_listen_sockets self').
Proof.
  destruct (added_listen_socket_is_found bound_5060 init
              (add_listen_socket_proxy bound_5060 init).2 eq_refl)
    as [path H].
  exists path. eexists. exact H.
Defined.

(** *** Adding and releasing *)

Lemma with_listen_sockets_same self :
  with_listen_sockets (_tp_listen_sockets self) self = self.
Proof. destruct self. reflexivity. Qed.

(** X8. A fresh proxy (no holder yet) added under keys that were free, and then
    released with its own description: the release succeeds, the sockets of
    the cache are again the ones from before the addition, and the
    descriptor stays registered with the retry thread. *)
Theorem add_then_release (lsck : SocketProxy) (self self1 : t) :
  retain_count lsck = 0 ->
  cache_at
    (fst <$> convert_listen_description_into_find_tuple (local_address lsck))
    (_tp_listen_sockets self) = None ->
  add_listen_socket_proxy lsck self = (Ok (), self1) ->
  exists self2,
    release_listen_address (local_address lsck) self1 = (Ok (), self2) /\
    yield_vals (_tp_listen_sockets self2) ≡ₚ yield_vals (_tp_listen_sockets self)
    /\ _rthr_fdSources self2 = _rthr_fdSources self1.
Proof.
  intros Hc Hfree Hadd.
  set (tpl := convert_listen_description_into_find_tuple (local_address lsck))
    in *.
  assert (Hperm : yield_vals (_tp_listen_sockets self1)
                  ≡ₚ retain lsck :: yield_vals (_tp_listen_sockets self)).
  { revert Hadd. unfold add_listen_socket_proxy, _add_socket_proxy. fold tpl.
    destruct (match socket lsck with
              | OSSocket fd => addInputFD fd (_rthr_fdSources self)
              | SharedProxy _ => (Ok (), _rthr_fdSources self)
              end) as [[u|e] fds]; [|discriminate].
    simpl cache_at. simpl length. rewrite drop_0.
    destruct (insert_cached_object (_tp_listen_sockets self) (fst <$> tpl)
                (Sock (retain lsck))) as [r c] eqn:E.
    intros [= -> <-]. simpl. eapply insert_cached_object_vals; eauto. }
  destruct (find_cached_object_listen lsck _
              (add_listen_socket_proxy_at _ _ _ Hadd)) as [path Hf].
  fold tpl in Hf.
  destruct (find_cached_object_found _ _ _ _ _ Hf) as [Hne Hat].
  unfold release_listen_address. fold tpl. rewrite Hf.
  assert (Hr : is_retained (release (retain lsck)) = false).
  { unfold is_retained, release, retain. simpl. rewrite Hc. reflexivity. }
  rewrite Hr. simpl negb. cbv iota.
  eexists. split; [reflexivity|]. split; [|reflexivity]. simpl.
  assert (Hk : fst <$> path <> []) by (destruct path; [congruence|discriminate]).
  destruct (cache_vals_at _ _ _ Hk Hat) as (l1 & l2 & V1 & _ & V3).
  rewrite V3. rewrite V1 in Hperm.
  rewrite <- Permutation_middle in Hperm.
  eapply Permutation_cons_inv, Hperm.
Qed.

Lemma add_then_release_witness :
  exists self2,
    release_listen_address (local_address bound_5060)
      (add_listen_socket_proxy bound_5060 init).2 = (Ok (), self2) /\
    yield_vals (_tp_listen_sockets self2) ≡ₚ yield_vals (_tp_listen_sockets init).
Proof.
  destruct (add_then_release bound_5060 init
              (add_listen_socket_proxy bound_5060 init).2
              eq_refl eq_refl eq_refl) as (self2 & H1 & H2 & _).
  exists self2. split; assumption.
Defined.

(** X9. A release with a description whose lookup reaches nothing raises, and
    the cache keeps its sockets; the rest of the transport is as it was. *)
Theorem release_unknown_address (listen_address : ListenDescription)
    (self : t) :
  resolve (_tp_listen_sockets self)
    (convert_listen_description_into_find_tuple listen_address) = None ->
  exists e self',
    release_listen_address listen_address self = (Raise e, self') /\
    yield_vals (_tp_listen_sockets self') = yield_vals (_tp_listen_sockets self)
    /\ _tp_connected_sockets self' = _tp_connected_sockets self
    /\ _rthr_fdSources self' = _rthr_fdSources self.
Proof.
  intros Hr.
  pose proof (find_cached_object_resolve (_tp_listen_sockets self)
                listen_address) as H.
  pose proof (find_cached_object_vals (_tp_listen_sockets self) _
                (listen_tuple_sound listen_address)) as Hv.
  cbv zeta in H. rewrite Hr in H. unfold release_listen_address.
  destruct (find_cached_object _ _) as [fr c]. simpl in H, Hv.
  destruct H as [(path & ->)|(e & -> & _)]; eexists _, _;
    (split; [reflexivity|]); simpl; auto.
Qed.

Lemma release_unknown_address_witness :
  exists e self',
    release_listen_address (local_address bound_5060) init = (Raise e, self').
Proof.
  destruct (release_unknown_address (local_address bound_5060) init eq_refl)
    as (e & self' & H & _).
  exists e, self'. exact H.
Defined.

(** *** Listening *)

(** X10. When the lookup of [listen_for_me] reaches an object, the call raises
    [SocketInUseError] without binding anything: the cache keeps its
    sockets, and no descriptor is registered. *)
Theorem listen_for_me_in_use_keeps
    (IPaddress_family : string -> option SockFamily)
    (listen : ListenDescription -> result SocketProxy)
    (sock_type : option SockType) (sock_family : option SockFamily)
    (name : Name) (port : Z) (port_filter : option (Key -> bool))
    (flowinfo scopeid : option Z)
    (listen_description : option ListenDescription)
    (self : t) (laddr : ListenDescription) :
  provisional_laddr IPaddress_family sock_type sock_family name port
    port_filter flowinfo scopeid listen_description = Ok laddr ->
  is_Some (resolve (_tp_listen_sockets self)
             (convert_listen_description_into_find_tuple laddr)) ->
  exists self',
    listen_for_me IPaddress_family listen true sock_type sock_family name
      port port_filter flowinfo scopeid listen_description self
    = (Raise SocketInUseError, self') /\
    yield_vals (_tp_listen_sockets self') = yield_vals (_tp_listen_sockets self)
    /\ _tp_connected_sockets self' = _tp_connected_sockets self
    /\ _rthr_fdSources self' = _rthr_fdSources self.
Proof.
  intros Hp [obj Hr]. unfold listen_for_me. simpl negb. cbv iota. rewrite Hp.
  pose proof (find_cached_object_resolve (_tp_listen_sockets self) laddr) as H.
  pose proof (find_cached_object_vals (_tp_listen_sockets self) _
                (listen_tuple_sound laddr)) as Hv.
  cbv zeta in H. rewrite Hr in H.
  destruct (find_cached_object _ _) as [fr c]. simpl in H, Hv.
  destruct H as (path & -> & _). eexists. split; [reflexivity|]. simpl. auto.
Qed.

Lemma listen_for_me_in_use_keeps_witness :
  exists self',
    listen_on (HostName "127.0.0.1") 0 one_listener
    = (Raise SocketInUseError, self') /\
    _rthr_fdSources self' = [7].
Proof.
  destruct (listen_for_me_in_use_keeps ipv4_literals bind_any None None
              (HostName "127.0.0.1") 0 None None None None one_listener
              (mkDesc (Some AF_INET) SOCK_DGRAM (HostName "127.0.0.1") 0
                      None None None false None None) eq_refl)
    as (self' & H & _ & _ & Hfd).
  - vm_compute. eauto.
  - exists self'. split; [exact H|exact Hfd].
Defined.

(** X11. An address that [listen_for_me] has returned is in use: a further
    [listen_for_me] with that description (a description with nothing left
    to deduce) raises [SocketInUseError] and changes nothing. *)
Theorem listened_address_is_in_use
    (IPaddress_family : string -> option SockFamily)
    (listen : ListenDescription -> result SocketProxy)
    (sock_type sock_type' : option SockType)
    (sock_family sock_family' : option SockFamily)
    (name name' : Name) (port port' : Z)
    (port_filter port_filter' : option (Key -> bool))
    (flowinfo scopeid flowinfo' scopeid' : option Z)
    (listen_description : option ListenDescription)
    (self self' : t) (laddr : ListenDescription) :
  listen_for_me IPaddress_family listen true sock_type sock_family name port
    port_filter flowinfo scopeid listen_description self = (Ok laddr, self') ->
  deduce_missing_values IPaddress_family laddr = laddr ->
  listen_for_me IPaddress_family listen true sock_type' sock_family' name'
    port' port_filter' flowinfo' scopeid' (Some laddr) self'
  = (Raise SocketInUseError, self').
Proof.
  unfold listen_for_me at 1. simpl negb. cbv iota.
  destruct (provisional_laddr _ _ _ _ _ _ _ _ _) as [pl|e]; [|discriminate].
  destruct (find_cached_object _ _) as [[[path [obj|]]|e] c]; try discriminate.
  unfold create_listen_socket.
  destruct (listen pl) as [lsck|e]; [|discriminate].
  destruct (add_listen_socket_proxy lsck (with_listen_sockets c self))
    as [[u|e] self1] eqn:Hadd; [|discriminate].
  intros [= <- <-] Hd. destruct u.
  destruct (find_cached_object_listen lsck _
              (add_listen_socket_proxy_at _ _ _ Hadd)) as [path' Hf].
  unfold listen_for_me, provisional_laddr. simpl negb. cbv iota.
  simpl local_address in Hd |- *. rewrite Hd, Hf.
  rewrite with_listen_sockets_same. reflexivity.
Qed.

Lemma listened_address_is_in_use_witness :
  listen_for_me ipv4_literals bind_any true None None NameAll 0 None None None
    (Some (mkDesc (Some AF_INET) SOCK_DGRAM (HostName "127.0.0.1") 49152
                  None None None false None None))
    (listen_on (HostName "127.0.0.1") 0 init).2
  = (Raise SocketInUseError, (listen_on (HostName "127.0.0.1") 0 init).2).
Proof.
  apply (listened_address_is_in_use ipv4_literals bind_any None None None None
           (HostName "127.0.0.1") NameAll 0 0 None None None None None None
           None init); reflexivity.
Defined.

(** *** Send-from sockets *)

Definition with_connected_sockets (c : Cache) (self : t) : t :=
  {| _tp_listen_sockets := _tp_listen_sockets self;
     _tp_connected_sockets := c;
     _rthr_fdSources := _rthr_fdSources self |}.

(** [find_send_from_socket]: the lookup in the cache of connected sockets;
    the proxy found is retained in place.  The path is given as the lookup
    left it; the proxy answered beside it and the cache carry the new
    count. *)
Definition find_send_from_socket (cad : ListenDescription) (self : t)
  : result (list (Key * Cache) * option Cache) * t :=
  let tpl := convert_connected_address_description_into_find_tuple cad in
  match find_cached_object (_tp_connected_sockets self) tpl with
  | (Raise e, c) => (Raise e, with_connected_sockets c self)
  | (Ok (path, None), c) => (Ok (path, None), with_connected_sockets c self)
  | (Ok (path, Some (Dict d)), c) =>
      (Raise (AttributeError "retain"), with_connected_sockets c self)
  | (Ok (path, Some (Sock sck)), c) =>
      let sck := retain sck in
      (Ok (path, Some (Sock sck)),
       with_connected_sockets (cache_replace (fst <$> path) (Sock sck) c) self)
  end.

Lemma connected_tuple_sound cad :
  lookups_sound (convert_connected_address_description_into_find_tuple cad).
Proof.
  unfold convert_connected_address_description_into_find_tuple, lookups_sound.
  pose proof (listen_tuple_sound cad) as H. unfold lookups_sound in H.
  apply Forall_app. split; [apply Forall_take, H|].
  apply Forall_app. split; [|apply Forall_drop, H].
  repeat constructor; simpl; discriminate.
Qed.

(** X12. Every lookup of a send-from socket that finds one retains it once, in
    the cache, and touches no other socket: the sockets of the cache are
    the same but for the count of the one found. *)
Theorem find_send_from_socket_retains (cad : ListenDescription)
    (self self' : t) (path : list (Key * Cache)) (sck : SocketProxy) :
  find_send_from_socket cad self = (Ok (path, Some (Sock sck)), self') ->
  exists l1 found l2,
    sck = retain found /\
    yield_vals (_tp_connected_sockets self) = l1 ++ found :: l2 /\
    yield_vals (_tp_connected_sockets self') = l1 ++ retain found :: l2.
Proof.
  unfold find_send_from_socket.
  pose proof (find_cached_object_vals (_tp_connected_sockets self) _
                (connected_tuple_sound cad)) as Hv.
  destruct (find_cached_object _ _) as [[[p [[found|d]|]]|e] c] eqn:Hf;
    try discriminate.
  intros [= <- <- <-]. simpl in Hv |- *.
  destruct (find_cached_object_found _ _ _ _ _ Hf) as [Hne Hat].
  assert (Hk : fst <$> p <> []) by (destruct p; [congruence|discriminate]).
  destruct (cache_vals_at _ _ _ Hk Hat) as (l1 & l2 & V1 & V2 & _).
  exists l1, found, l2. split; [reflexivity|].
  split; [congruence|apply V2].
Qed.

(** A connected proxy to 192.0.2.4:5060 that shares the socket of
    [bound_5060]. *)
Definition peer_5060 : SocketProxy :=
  mkProxy (mkDesc (Some AF_INET) SOCK_DGRAM (HostName "127.0.0.1") 5060
                  None None None true (Some (HostName "192.0.2.4")) (Some 5060))
          (SharedProxy 7) true 0.

Example find_send_from_socket_ex :
  yield_vals
    (_tp_connected_sockets
       (find_send_from_socket (local_address peer_5060)
          (add_connected_socket_proxy peer_5060 [] init).2).2)
  = [retain (retain peer_5060)].
Proof. reflexivity. Qed.

Lemma find_send_from_socket_retains_witness :
  exists l1 found l2,
    yield_vals
      (_tp_connected_sockets (add_connected_socket_proxy peer_5060 [] init).2)
    = l1 ++ found :: l2.
Proof.
  destruct (find_send_from_socket_retains (local_address peer_5060)
              (add_connected_socket_proxy peer_5060 [] init).2 _ _ _ eq_refl)
    as (l1 & found & l2 & _ & H & _).
  exists l1, found, l2. exact H.
Defined.

(** *** Descriptions *)

(** X13. [deduce_missing_values] deduces everything at once: a second call
    changes nothing; and a description it leaves with the IPv6 family has
    its flowinfo and scopeid set. *)
Theorem deduce_missing_values_idempotent
    (IPaddress_family : string -> option SockFamily)
    (self : ListenDescription) :
  let deduced := deduce_missing_values IPaddress_family self in
  deduce_missing_values IPaddress_family deduced = deduced /\
  (sock_family deduced = Some AF_INET6 ->
   is_Some (flowinfo deduced) /\ is_Some (scopeid deduced)).
Proof.
  destruct self as [family ty name port fi sc pf conn rn rp].
  unfold deduce_missing_values. simpl. split.
  - destruct family as [[|]|]; simpl; [reflexivity|reflexivity|].
    destruct (IPAddressFamilyFromName IPaddress_family name) as [[|]|] eqn:E;
      simpl; rewrite ?E; reflexivity.
  - intros ->. simpl. split; eauto.
Qed.

Lemma deduce_missing_values_idempotent_witness :
  let deduced :=
    deduce_missing_values ipv4_literals
      (mkDesc (Some AF_INET6) SOCK_DGRAM (HostName "::1") 5060
              None None None false None None) in
  is_Some (flowinfo deduced) /\ is_Some (scopeid deduced).
Proof.
  apply (proj2 (deduce_missing_values_idempotent ipv4_literals
                  (mkDesc (Some AF_INET6) SOCK_DGRAM (HostName "::1") 5060
                          None None None false None None))).
  reflexivity.
Defined.

End Transport.

(** ** The SIP message demultiplexer ([sipparty/sip/siptransport.py]) *)

Module SIPTransport.
Import Py.

Definition bytes := list byte.

#[global] Instance byte_eq_decision : EqDecision byte := Byte.byte_eq_dec.

(** [data.startswith(prefix)] and [data.find(sub)]; [find] answers [-1]
    when [sub] does not occur. *)
Fixpoint startswith (data prefix : bytes) : bool :=
  match prefix, data with
  | [], _ => true
  | _ :: _, [] => false
  | p :: prefix, b :: data => bool_decide (b = p) && startswith data prefix
  end.

Fixpoint find_from (data sub : bytes) (start : Z) : Z :=
  match data with
  | [] => if startswith [] sub then start else -1
  | _ :: rest =>
      if startswith data sub then start else find_from rest sub (start + 1)
  end.

Definition find (data sub : bytes) : Z := find_from data sub 0.

Definition eoleol : bytes := [x0d; x0a; x0d; x0a].

(** What the demultiplexer reads of a parsed [Message].  An attribute that
    [hasattr] does not find is [None]. *)
Inductive MessageType :=
  | Request (method : string)
  | Response (code : Z).

#[global] Instance MessageType_eq_dec : EqDecision MessageType.
Proof. solve_decision. Defined.

Record Message := mkMessage {
  type : MessageType;
  FromHeader_tag : option string;
  Call_IDHeader : option string;
  ToHeader_tag : option string;
  ToHeader_aor : string;
  parsedBytes : Z
}.

Definition isresponse (msg : Message) : bool :=
  match type msg with Response _ => true | Request _ => false end.

Definition AOR := string.

(** Modelled from the spec: [prot.EstablishedDialogID] (not part of the
    sources at hand) is the triple (Call-ID, local tag, remote tag).  A
    provisional dialog ID is a tuple of texts as well. *)
Abbreviation EstablishedDialogID := (string * string * string)%type.
Abbreviation ProvisionalDialogID := (list string).

(** Dialogs and handlers are objects of other layers, known here by
    reference. *)
Definition Dialog := nat.

Inductive Handler :=
  | AORHandlerInstance (ref : nat)
  | NotAnAORHandler (ref : nat).

Definition isinstance_AORHandler (handler : Handler) : bool :=
  match handler with AORHandlerInstance _ => true | NotAnAORHandler _ => false end.

(** What a run leaves behind besides its state: the calls of the logger
    and the calls of [Message.Parse], in order. *)
Inductive Level := DEBUG | DETAIL | INFO | WARNING | ERROR | EXCEPTION.

Inductive Event :=
  | Logged (level : Level) (format : string)
  | Parsed (data : bytes).

Section Demultiplexer.

(** The state of the objects of the other layers (dialogs, handlers). *)
Variable World : Type.

Record t := mk {
  _sptr_messages : list Message;
  _sptr_provisionalDialogs : gmap ProvisionalDialogID Dialog;
  _sptr_establishedDialogs : gmap EstablishedDialogID Dialog;
  _sptr_dialogHandlers : gmap AOR Handler;
  super : Transport.t;
  world : World
}.

Definition set_messages (f : list Message -> list Message) (self : t) : t :=
  mk (f (_sptr_messages self)) (_sptr_provisionalDialogs self)
     (_sptr_establishedDialogs self) (_sptr_dialogHandlers self)
     (super self) (world self).
Definition set_provisionalDialogs
    (f : gmap ProvisionalDialogID Dialog -> gmap ProvisionalDialogID Dialog)
    (self : t) : t :=
  mk (_sptr_messages self) (f (_sptr_provisionalDialogs self))
     (_sptr_establishedDialogs self) (_sptr_dialogHandlers self)
     (super self) (world self).
Definition set_establishedDialogs
    (f : gmap EstablishedDialogID Dialog -> gmap EstablishedDialogID Dialog)
    (self : t) : t :=
  mk (_sptr_messages self) (_sptr_provisionalDialogs self)
     (f (_sptr_establishedDialogs self)) (_sptr_dialogHandlers self)
     (super self) (world self).
Definition set_dialogHandlers
    (f : gmap AOR Handler -> gmap AOR Handler) (self : t) : t :=
  mk (_sptr_messages self) (_sptr_provisionalDialogs self)
     (_sptr_establishedDialogs self) (f (_sptr_dialogHandlers self))
     (super self) (world self).
Definition set_super (f : Transport.t -> Transport.t) (self : t) : t :=
  mk (_sptr_messages self) (_sptr_provisionalDialogs self)
     (_sptr_establishedDialogs self) (_sptr_dialogHandlers self)
     (f (super self)) (world self).

(** The monad of the methods: state, exceptions, and the events emitted.
    The state reached when an exception is raised is kept: what a method
    did before it raised stays done. *)
Definition M (A : Type) : Type := t -> result A * t * list Event.

Definition ret {A} (a : A) : M A := fun self => (Ok a, self, []).

Definition bind {A B} (m : M A) (k : A -> M B) : M B :=
  fun self =>
    match m self with
    | (Ok a, self, ev) =>
        let '(r, self, ev') := k a self in (r, self, ev ++ ev')
    | (Raise e, self, ev) => (Raise e, self, ev)
    end.

Definition raise {A} (e : exn) : M A := fun self => (Raise e, self, []).

Definition emit (ev : Event) : M unit := fun self => (Ok (), self, [ev]).

Definition log (level : Level) (format : string) : M unit :=
  emit (Logged level format).

Definition get : M t := fun self => (Ok self, self, []).

Definition modify (f : t -> t) : M unit := fun self => (Ok (), f self, []).

(** [try: m except Exception: handler] *)
Definition try_except {A} (m : M A) (handler : exn -> M A) : M A :=
  fun self =>
    match m self with
    | (Ok a, self, ev) => (Ok a, self, ev)
    | (Raise e, self, ev) =>
        let '(r, self, ev') := handler e self in (r, self, ev ++ ev')
    end.

(** A call into another layer: it may change the state and raise, and
    emits nothing of its own here. *)
Definition call {A} (f : t -> result A * t) : M A :=
  fun self => let '(r, self) := f self in (r, self, []).

(** Reading an attribute that may be missing. *)
Definition attr {A} (name : string) (o : option A) : M A :=
  match o with Some a => ret a | None => raise (AttributeError name) end.

Notation "'let!' x ':=' m 'in' k" := (bind m (fun x => k))
  (at level 10, x name, m at level 100, k at level 200, only parsing).
Notation "m ';;;' k" := (bind m (fun _ => k))
  (at level 100, k at level 200, right associativity, only parsing).

(** The parser, and the interface of dialogs and handlers. *)
Variable Parse : bytes -> result Message.
Variable ProvisionalDialogIDFromEstablishedID :
  EstablishedDialogID -> ProvisionalDialogID.
Variable new_dialog_from_request :
  Handler -> Message -> t -> result (option Dialog) * t.
Variable consume_message : Dialog -> Message -> t -> result unit * t.
Variable provisionalDialogID : Dialog -> World -> ProvisionalDialogID.
Variable dialogID : Dialog -> World -> option EstablishedDialogID.

(** *** The AOR manager interface *)

(** The listing of all AORs that [addDialogHandlerForAOR] logs at detail
    level, after the handler is stored, is left out. *)
Definition addDialogHandlerForAOR (aor : AOR) (handler : Handler) : M unit :=
  if negb (isinstance_AORHandler handler)
  then raise (TypeError "instance is not of type AORHandler")
  else
    let! self := get in
    if bool_decide (is_Some (_sptr_dialogHandlers self !! aor))
    then raise (KeyError "Handler already registered for AOR")
    else
      log DEBUG "Adding handler %r for AOR %r";;;
      modify (set_dialogHandlers (<[aor := handler]>)).

Definition removeDialogHandlerForAOR (aor : AOR) : M unit :=
  let! self := get in
  if negb (bool_decide (is_Some (_sptr_dialogHandlers self !! aor)))
  then raise (KeyError "AOR handler not registered for AOR")
  else
    log DEBUG "Remove handler for AOR %r";;;
    modify (set_dialogHandlers (delete aor)).

Definition updateDialogGrouping (dlg : Dialog) : M unit :=
  log DETAIL "Update grouping for dlg %r";;;
  let! self := get in
  let pdid := provisionalDialogID dlg (world self) in
  match dialogID dlg (world self) with
  | Some did =>
      log DEBUG "Dialog is established.";;;
      (if bool_decide (is_Some (_sptr_provisionalDialogs self !! pdid))
       then log DEBUG "  Dialog was provisional.";;;
            modify (set_provisionalDialogs (delete pdid))
       else ret ());;;
      (if negb (bool_decide (is_Some (_sptr_establishedDialogs self !! did)))
       then log DEBUG "  Dialog was not yet established.";;;
            modify (set_establishedDialogs (<[did := dlg]>))
       else ret ())
  | None =>
      log DEBUG "Dialog is not established.";;;
      if negb (bool_decide (is_Some (_sptr_provisionalDialogs self !! pdid)))
      then log DEBUG "  Dialog is new.";;;
           modify (set_provisionalDialogs (<[pdid := dlg]>))
      else ret ()
  end.

(** *** The consumer *)

Definition consumeDialogCreatingMessage (msg : Message) : M unit :=
  let toAOR := ToHeader_aor msg in
  let! self := get in
  log DEBUG "Find handler for %r";;;
  match _sptr_dialogHandlers self !! toAOR with
  | None => log INFO "Message for unregistered AOR %r discarded."
  | Some hdlr =>
      let! dlg := call (new_dialog_from_request hdlr msg) in
      match dlg with
      | None =>
          log INFO "Dropped dialog creating %s message as not wanted by AOR handler"
      | Some dlg =>
          call (consume_message dlg msg);;;
          updateDialogGrouping dlg
      end
  end.

Definition consumeInDialogMessage (msg : Message) : M unit :=
  let! self := get in
  let estDs := _sptr_establishedDialogs self in
  let! did :=
    if isresponse msg then
      log DEBUG "Message is response";;;
      let! call_id := attr "Call_IDHeader" (Call_IDHeader msg) in
      let! from_tag := attr "tag" (FromHeader_tag msg) in
      let! to_tag := attr "tag" (ToHeader_tag msg) in
      ret (call_id, from_tag, to_tag)
    else
      log DEBUG "Message is request";;;
      let! call_id := attr "Call_IDHeader" (Call_IDHeader msg) in
      let! to_tag := attr "tag" (ToHeader_tag msg) in
      let! from_tag := attr "tag" (FromHeader_tag msg) in
      ret (call_id, to_tag, from_tag) in
  log DETAIL "Is established dialog %r in %r?";;;
  match estDs !! did with
  | Some dlg =>
      log DEBUG "Found established dialog for %r";;;
      call (consume_message dlg msg)
  | None =>
      let pdid := ProvisionalDialogIDFromEstablishedID did in
      let provDs := _sptr_provisionalDialogs self in
      log DETAIL "Is provisional dialog %r in %r?";;;
      match provDs !! pdid with
      | Some dlg =>
          log DEBUG "Found provisional dialog for %r";;;
          call (consume_message dlg msg)
      | None =>
          log WARNING "Unable to find a dialog for message with dialog ID %r";;;
          raise AssertionError
      end
  end.

Definition consumeMessage (msg : Message) : M unit :=
  modify (set_messages (fun msgs => msgs ++ [msg]));;;
  if bool_decide (type msg = Request "ACK") then ret ()
  else
    match FromHeader_tag msg with
    | None =>
        log DEBUG "FromHeader: %r";;;
        log INFO "Message with no from tag is discarded."
    | Some _ =>
        if match Call_IDHeader msg with
           | None => true
           | Some value => bool_decide (value = "")
           end
        then
          attr "Call_IDHeader" (Call_IDHeader msg);;;
          log DEBUG "Call-ID: %r";;;
          log INFO "Message with no Call-ID is discarded."
        else
          match ToHeader_tag msg with
          | None =>
              log DEBUG "Dialog creating message";;;
              consumeDialogCreatingMessage msg
          | Some _ =>
              log DEBUG "In dialog message";;;
              consumeInDialogMessage msg
          end
    end.

Definition sipByteConsumer (local_addr : Transport.SocketProxy)
    (remote_addr : Transport.Name * Z) (data : bytes) : M Z :=
  log DEBUG "SIPTransport attempting to consume %d bytes.";;;
  let eoleol_index := find data eoleol in
  if bool_decide (eoleol_index = -1) then
    log DEBUG "Data not a full SIP message.";;;
    ret 0
  else
    log DEBUG "Full message";;;
    emit (Parsed data);;;
    match Parse data with
    | Raise ParseError =>
        log ERROR "Parse errror %s parsing message.";;;
        ret 0
    | Raise e => raise e
    | Ok msg =>
        log INFO "Message parsed.";;;
        try_except (consumeMessage msg)
          (fun _ => log EXCEPTION "Consuming %s message raised exception.");;;
        ret (parsedBytes msg)
    end.

(** *** The way bytes reach the consumer *)

(** Modelled from the spec: [DeepClass] (not part of the sources at hand)
    runs [IsValidPortNum] on [remote_port] when the
    [ConnectedAddressDescription] of a peer is made; an invalid port is a
    configuration error raised to the caller. *)
Definition new_ConnectedAddressDescription (desc : Transport.ListenDescription)
    (addr : Transport.Name * Z) : result Transport.ListenDescription :=
  if negb (Transport.IsValidPortNum addr.2)
  then Raise (ValueError "remote_port")
  else Ok (Transport.mkDesc
             (Transport.sock_family desc) (Transport.sock_type desc)
             (Transport.name desc) (Transport.port desc) None None None
             true (Some addr.1) (Some addr.2)).

Definition fileno (sck : Transport.SocketProxy) : Z :=
  match Transport.socket sck with
  | Transport.OSSocket fd => fd
  | Transport.SharedProxy fd => fd
  end.

Definition DataCallback : Type :=
  Transport.SocketProxy -> Transport.Name * Z -> bytes -> M Z.

(** [SocketProxy._readable_socket_selected], for a proxy whose transport
    is this one.  [received] is what [recvfrom(4096)] hands over: the data
    and the address of the sender.  What the data callback answers is
    dropped, and nothing of the data is kept. *)
Definition _readable_socket_selected (self : Transport.SocketProxy)
    (data_callback : option DataCallback)
    (received : bytes * (Transport.Name * Z)) : M unit :=
  let '(data, addr) := received in
  log DEBUG "recvfrom %r local:%r";;;
  (if bool_decide (0 < length data)%nat
   then log INFO " received %r -> %r" else ret ());;;
  (if negb (Transport.is_connected self) then
     match new_ConnectedAddressDescription (Transport.local_address self) addr with
     | Raise e => raise e
     | Ok cad =>
         let csp :=
           Transport.mkProxy cad (Transport.SharedProxy (fileno self)) true 0 in
         call (fun tp =>
                 let '(r, sup) :=
                   Transport.add_connected_socket_proxy csp [] (super tp) in
                 (r, set_super (fun _ => sup) tp))
     end
   else ret ());;;
  match data_callback with
  | None => raise NotImplementedError
  | Some dc => dc self addr data;;; ret ()
  end.

(** [SocketProxy.socket_selected]: a stream and a datagram socket are both
    read by [_readable_socket_selected]. *)
Definition socket_selected (self : Transport.SocketProxy)
    (data_callback : option DataCallback)
    (received : bytes * (Transport.Name * Z)) : M unit :=
  match Transport.sock_type (Transport.local_address self) with
  | Transport.SOCK_STREAM => _readable_socket_selected self data_callback received
  | Transport.SOCK_DGRAM => _readable_socket_selected self data_callback received
  end.

(** [RetryThread._rthr_processSelectedReadFDs], over the sockets of this
    transport that become readable, one after the other, each with what it
    receives; every socket has [sipByteConsumer] as its data callback.  An
    exception ends the thread. *)
Fixpoint _rthr_processSelectedReadFDs
    (rfds : list (Transport.SocketProxy * (bytes * (Transport.Name * Z))))
  : M unit :=
  match rfds with
  | [] => ret ()
  | (sck, received) :: rest =>
      socket_selected sck (Some sipByteConsumer) received;;;
      _rthr_processSelectedReadFDs rest
  end.

(** [Transport.receivedData], the buffering receive path of the old
    interface: its first statement is [assert 0], the rest is not reached. *)
Definition receivedData (lAddr rAddr : Transport.Name * Z) (data : bytes)
  : M unit :=
  raise AssertionError.

(** The data given to [Message.Parse], call after call. *)
Definition parse_calls (events : list Event) : list bytes :=
  omap (fun ev => match ev with Parsed data => Some data | _ => None end) events.


(** The dialog ID of an in-dialog message. *)
Definition dialog_id_of (msg : Message) (call_id from_tag to_tag : string)
  : EstablishedDialogID :=
  if isresponse msg then (call_id, from_tag, to_tag)
  else (call_id, to_tag, from_tag).


(** [sub] occurs in [data]. *)
Definition occurs (sub data : bytes) : Prop :=
  exists pre post, data = pre ++ sub ++ post.

(** *** Searching bytes *)

Lemma startswith_spec prefix : forall data,
  startswith data prefix = true <-> exists post, data = prefix ++ post.
Proof.
  induction prefix as [|p prefix IH]; intros data; cbn [startswith].
  - destruct data; split; eauto.
  - destruct data as [|b data].
    + split; [discriminate|]. intros [post [=]].
    + cbn [startswith].
      rewrite andb_true_iff, bool_decide_eq_true, IH. split.
      * intros [-> [post ->]]. eauto.
      * intros [post [= -> ->]]. eauto.
Qed.

Lemma find_from_none sub : forall data start,
  0 <= start -> (find_from data sub start = -1 <-> ~ occurs sub data).
Proof.
  induction data as [|b data IH]; intros start Hs; cbn [find_from].
  - destruct (startswith [] sub) eqn:E.
    + apply startswith_spec in E as [post E]. split; [lia|].
      intros H. exfalso. apply H. exists [], post. exact E.
    + split; [|reflexivity]. intros _ (pre & post & H).
      destruct pre; [|discriminate]. simpl in H.
      assert (startswith [] sub = true) by (apply startswith_spec; eauto).
      congruence.
  - destruct (startswith (b :: data) sub) eqn:E.
    + apply startswith_spec in E as [post E]. split; [lia|].
      intros H. exfalso. apply H. exists [], post. exact E.
    + rewrite IH by lia. split.
      * intros Hn (pre & post & H). destruct pre as [|x pre].
        -- assert (startswith (b :: data) sub = true)
             by (apply startswith_spec; eauto).
           congruence.
        -- injection H as -> ->. apply Hn. exists pre, post. reflexivity.
      * intros Hn (pre & post & ->). apply Hn. exists (b :: pre), post.
        reflexivity.
Qed.

Lemma find_none data sub : find data sub = -1 <-> ~ occurs sub data.
Proof. apply find_from_none. lia. Qed.

(** *** The consumer, case by case *)

Lemma sipByteConsumer_not_full local_addr remote_addr data self :
  find data eoleol = -1 ->
  sipByteConsumer local_addr remote_addr data self
  = (Ok 0, self,
     [Logged DEBUG "SIPTransport attempting to consume %d bytes.";
      Logged DEBUG "Data not a full SIP message."]).
Proof.
  intros H. unfold sipByteConsumer. rewrite H. reflexivity.
Qed.

Lemma sipByteConsumer_parse_error local_addr remote_addr data self :
  find data eoleol <> -1 -> Parse data = Raise ParseError ->
  sipByteConsumer local_addr remote_addr data self
  = (Ok 0, self,
     [Logged DEBUG "SIPTransport attempting to consume %d bytes.";
      Logged DEBUG "Full message";
      Parsed data;
      Logged ERROR "Parse errror %s parsing message."]).
Proof.
  intros H HP. unfold sipByteConsumer.
  rewrite bool_decide_eq_false_2 by assumption. rewrite HP. reflexivity.
Qed.

Lemma sipByteConsumer_parsed local_addr remote_addr data self msg :
  find data eoleol <> -1 -> Parse data = Ok msg ->
  sipByteConsumer local_addr remote_addr data self
  = let '(r, self', ev) := consumeMessage msg self in
    (Ok (parsedBytes msg), self',
     [Logged DEBUG "SIPTransport attempting to consume %d bytes.";
      Logged DEBUG "Full message";
      Parsed data;
      Logged INFO "Message parsed."]
     ++ ev
     ++ match r with
        | Ok _ => []
        | Raise _ =>
            [Logged EXCEPTION "Consuming %s message raised exception."]
        end).
Proof.
  intros H HP. unfold sipByteConsumer.
  rewrite bool_decide_eq_false_2 by assumption. rewrite HP.
  unfold bind, try_except, log, emit, ret. simpl.
  destruct (consumeMessage msg self) as [[[u|e] self'] ev]; simpl;
    rewrite ?app_nil_r; reflexivity.
Qed.

(** *** Which calls reach the parser *)

(** A computation is quiet when it never calls the parser. *)
Definition quiet {A} (m : M A) : Prop :=
  forall self, parse_calls (m self).2 = [].

Lemma parse_calls_app ev ev' :
  parse_calls (ev ++ ev') = parse_calls ev ++ parse_calls ev'.
Proof. apply omap_app. Qed.

Lemma bind_events {A B} (m : M A) (k : A -> M B) self :
  (bind m k self).2
  = match m self with
    | (Ok a, self', ev) => ev ++ (k a self').2
    | (Raise _, _, ev) => ev
    end.
Proof.
  unfold bind. destruct (m self) as [[[a|e] self'] ev]; [|reflexivity].
  destruct (k a self') as [[r self''] ev']. reflexivity.
Qed.

Lemma quiet_ret {A} (a : A) : quiet (ret a).
Proof. intros self. reflexivity. Qed.

Lemma quiet_raise {A} e : quiet (@raise A e).
Proof. intros self. reflexivity. Qed.

Lemma quiet_log level format : quiet (log level format).
Proof. intros self. reflexivity. Qed.

Lemma quiet_get : quiet get.
Proof. intros self. reflexivity. Qed.

Lemma quiet_modify f : quiet (modify f).
Proof. intros self. reflexivity. Qed.

Lemma quiet_call {A} (f : t -> result A * t) : quiet (call f).
Proof. intros self. unfold call. destruct (f self). reflexivity. Qed.

Lemma quiet_attr {A} name (o : option A) : quiet (attr name o).
Proof. destruct o; [apply quiet_ret|apply quiet_raise]. Qed.

Lemma quiet_bind {A B} (m : M A) (k : A -> M B) :
  quiet m -> (forall a, quiet (k a)) -> quiet (bind m k).
Proof.
  intros Hm Hk self. rewrite bind_events. specialize (Hm self).
  destruct (m self) as [[[a|e] self'] ev]; simpl in Hm; [|exact Hm].
  rewrite parse_calls_app, Hm. apply Hk.
Qed.

Lemma quiet_try_except {A} (m : M A) (handler : exn -> M A) :
  quiet m -> (forall e, quiet (handler e)) -> quiet (try_except m handler).
Proof.
  intros Hm Hh self. unfold try_except. specialize (Hm self).
  destruct (m self) as [[[a|e] self'] ev]; simpl in Hm; [exact Hm|].
  specialize (Hh e self'). destruct (handler e self') as [[r self''] ev'].
  simpl in *. rewrite parse_calls_app, Hm, Hh. reflexivity.
Qed.

Ltac quiet :=
  repeat first
    [ apply quiet_ret | apply quiet_raise | apply quiet_log | apply quiet_get
    | apply quiet_modify | apply quiet_call | apply quiet_attr
    | apply quiet_bind; [|intro]
    | apply quiet_try_except; [|intro]
    | progress cbv zeta
    | match goal with
      | |- quiet (if ?b then _ else _) => destruct b
      | |- quiet (match ?x with _ => _ end) => destruct x
      end ].

Lemma updateDialogGrouping_quiet dlg : quiet (updateDialogGrouping dlg).
Proof. unfold updateDialogGrouping. cbv zeta. quiet. Qed.

Lemma consumeDialogCreatingMessage_quiet msg :
  quiet (consumeDialogCreatingMessage msg).
Proof. unfold consumeDialogCreatingMessage. cbv zeta. quiet. Qed.

Lemma consumeInDialogMessage_quiet msg : quiet (consumeInDialogMessage msg).
Proof. unfold consumeInDialogMessage. cbv zeta. quiet. Qed.

Lemma consumeMessage_quiet msg : quiet (consumeMessage msg).
Proof. unfold consumeMessage. quiet. Qed.

Lemma sipByteConsumer_parse_calls local_addr remote_addr data self :
  parse_calls (sipByteConsumer local_addr remote_addr data self).2
  `sublist_of` [data].
Proof.
  destruct (decide (find data eoleol = -1)) as [H|H].
  - rewrite sipByteConsumer_not_full by assumption. simpl.
    apply sublist_nil_l.
  - destruct (Parse data) as [msg|e] eqn:HP.
    + rewrite (sipByteConsumer_parsed _ _ _ _ msg) by assumption.
      pose proof (consumeMessage_quiet msg self) as Hq.
      destruct (consumeMessage msg self) as [[r self'] ev]. simpl in *.
      rewrite parse_calls_app, Hq. destruct r; reflexivity.
    + unfold sipByteConsumer.
      rewrite bool_decide_eq_false_2 by assumption. rewrite HP.
      destruct e; reflexivity.
Qed.

Lemma _readable_socket_selected_parse_calls sck data addr self :
  parse_calls
    (_readable_socket_selected sck (Some sipByteConsumer) (data, addr) self).2
  `sublist_of` [data].
Proof.
  unfold _readable_socket_selected.
  rewrite !bind_events.
  assert (H1 : quiet (log DEBUG "recvfrom %r local:%r")) by quiet.
  specialize (H1 self).
  destruct (log DEBUG "recvfrom %r local:%r" self) as [[[u|e] s1] ev1];
    [|simpl in *; rewrite H1; apply sublist_nil_l].
  rewrite bind_events.
  set (m2 := if bool_decide (0 < length data)%nat
             then log INFO " received %r -> %r" else ret ()).
  assert (H2 : quiet m2) by (subst m2; quiet).
  specialize (H2 s1).
  destruct (m2 s1) as [[[u2|e2] s2] ev2];
    [|simpl in *; rewrite parse_calls_app, H1, H2; apply sublist_nil_l].
  rewrite bind_events.
  match goal with
  | |- context [match ?m s2 with _ => _ end] => set (m3 := m)
  end.
  assert (H3 : quiet m3) by (subst m3; quiet).
  specialize (H3 s2).
  destruct (m3 s2) as [[[u3|e3] s3] ev3];
    [|simpl in *; rewrite !parse_calls_app, H1, H2, H3; apply sublist_nil_l].
  rewrite bind_events.
  pose proof (sipByteConsumer_parse_calls sck addr data s3) as H4.
  destruct (sipByteConsumer sck addr data s3) as [[[n|e4] s4] ev4];
    simpl in *; rewrite !parse_calls_app, H1, H2, H3; simpl;
    rewrite ?app_nil_r; exact H4.
Qed.

Lemma _rthr_processSelectedReadFDs_parse_calls rfds : forall self,
  parse_calls (_rthr_processSelectedReadFDs rfds self).2
  `sublist_of` ((fun rfd => rfd.2.1) <$> rfds).
Proof.
  induction rfds as [|[sck [data addr]] rest IH]; intros self.
  - simpl. apply sublist_nil_l.
  - cbn [_rthr_processSelectedReadFDs]. rewrite bind_events.
    pose proof (_readable_socket_selected_parse_calls sck data addr self) as H.
    replace (socket_selected sck (Some sipByteConsumer) (data, addr))
      with (_readable_socket_selected sck (Some sipByteConsumer) (data, addr))
      by (unfold socket_selected; destruct (Transport.sock_type _); reflexivity).
    destruct (_readable_socket_selected sck (Some sipByteConsumer)
                (data, addr) self) as [[[u|e] self'] ev]; simpl in H |- *.
    + rewrite parse_calls_app.
      apply (sublist_app _ [data]); [exact H|apply IH].
    + apply (sublist_inserts_r _ _ [data]). exact H.
Qed.

(** *** Routing *)

Lemma consumeInDialogMessage_did msg call_id from_tag to_tag self :
  Call_IDHeader msg = Some call_id -> FromHeader_tag msg = Some from_tag ->
  ToHeader_tag msg = Some to_tag ->
  let did := dialog_id_of msg call_id from_tag to_tag in
  (consumeInDialogMessage msg self).1
  = match _sptr_establishedDialogs self !! did with
    | Some dlg => consume_message dlg msg self
    | None =>
        match _sptr_provisionalDialogs self
                !! ProvisionalDialogIDFromEstablishedID did with
        | Some dlg => consume_message dlg msg self
        | None => (Raise AssertionError, self)
        end
    end.
Proof.
  intros Hc Hf Ht did. subst did. unfold consumeInDialogMessage, dialog_id_of.
  rewrite Hc, Hf, Ht.
  destruct (isresponse msg);
    cbv beta iota zeta delta [bind get log emit ret attr call raise];
    match goal with
    | |- context [_sptr_establishedDialogs self !! ?d] =>
        destruct (_sptr_establishedDialogs self !! d) as [dlg|];
        [destruct (consume_message dlg msg self); reflexivity|];
        destruct (_sptr_provisionalDialogs self
                    !! ProvisionalDialogIDFromEstablishedID d) as [dlg|];
        [destruct (consume_message dlg msg self); reflexivity|reflexivity]
    end.
Qed.

Definition recorded (msg : Message) (self : t) : t :=
  set_messages (fun msgs => msgs ++ [msg]) self.

(** C4. A parsed message other than an ACK that has a From tag, a Call-ID
    that is not empty and a To tag is routed by its established dialog ID,
    (Call-ID, From tag, To tag) for a response and (Call-ID, To tag, From
    tag) for a request: it is handed to the established dialog under that ID
    when there is one, else to the provisional dialog under the provisional
    ID derived from it when there is one, and else it is dropped: the
    routing ends with no dialog called and the dialog maps as they were. *)
Theorem in_dialog_message_routing (msg : Message)
    (call_id from_tag to_tag : string) (self : t) :
  type msg <> Request "ACK" ->
  FromHeader_tag msg = Some from_tag ->
  Call_IDHeader msg = Some call_id -> call_id <> "" ->
  ToHeader_tag msg = Some to_tag ->
  let did :=
    if isresponse msg then (call_id, from_tag, to_tag)
    else (call_id, to_tag, from_tag) in
  (consumeMessage msg self).1
  = match _sptr_establishedDialogs self !! did with
    | Some dlg => consume_message dlg msg (recorded msg self)
    | None =>
        match _sptr_provisionalDialogs self
                !! ProvisionalDialogIDFromEstablishedID did with
        | Some dlg => consume_message dlg msg (recorded msg self)
        | None => (Raise AssertionError, recorded msg self)
        end
    end.
Proof.
  intros Hty Hf Hc Hne Ht did.
  pose proof (consumeInDialogMessage_did msg call_id from_tag to_tag
                (recorded msg self) Hc Hf Ht) as H.
  cbv zeta in H. unfold dialog_id_of in H. fold did in H.
  change (_sptr_establishedDialogs (recorded msg self))
    with (_sptr_establishedDialogs self) in H.
  change (_sptr_provisionalDialogs (recorded msg self))
    with (_sptr_provisionalDialogs self) in H.
  rewrite <- H. clear H.
  unfold consumeMessage. rewrite Hf, Hc, Ht.
  rewrite bool_decide_eq_false_2 by assumption.
  rewrite (bool_decide_eq_false_2 (call_id = "")) by assumption.
  unfold bind, modify, log, emit. simpl. fold (recorded msg self).
  destruct (consumeInDialogMessage msg (recorded msg self)) as [[r s'] ev].
  reflexivity.
Qed.

(** *** Handlers *)

(** C6. Registering a handler (an [AORHandler]) for an AOR that has one
    raises [KeyError] and leaves the transport, with its handler map, as it
    was; removing the handler of an AOR that has none raises [KeyError] and
    leaves the transport as it was. *)
Theorem handler_registration_errors (aor : AOR) (handler : Handler) (self : t) :
  (isinstance_AORHandler handler = true ->
   is_Some (_sptr_dialogHandlers self !! aor) ->
   addDialogHandlerForAOR aor handler self
   = (Raise (KeyError "Handler already registered for AOR"), self, [])) /\
  (_sptr_dialogHandlers self !! aor = None ->
   removeDialogHandlerForAOR aor self
   = (Raise (KeyError "AOR handler not registered for AOR"), self, [])).
Proof.
  split.
  - intros Hi Hs. unfold addDialogHandlerForAOR. rewrite Hi. simpl.
    unfold bind, get. simpl. rewrite bool_decide_eq_true_2 by assumption.
    reflexivity.
  - intros Hn. unfold removeDialogHandlerForAOR, bind, get. simpl.
    rewrite bool_decide_eq_false_2; [reflexivity|].
    rewrite Hn. intros [? [=]].
Qed.

(** *** Chunks *)





(** *** Parse failures *)

(** C3. When the data holds the CRLF CRLF boundary and parsing it fails,
    the consumer logs the error, answers 0 and leaves the transport as it
    was; the parser was called once, on that data.  On the way bytes reach
    the consumer, each datagram is given to the parser at most once and
    nothing else is: the calls of the parser are, in order, among the
    datagrams received, so bytes that failed to parse are not parsed again
    unless they arrive again. *)
Theorem parse_failure_dropped (local_addr : Transport.SocketProxy)
    (remote_addr : Transport.Name * Z) (data : bytes) (self : t) :
  occurs eoleol data -> Parse data = Raise ParseError ->
  (exists ev,
     sipByteConsumer local_addr remote_addr data self = (Ok 0, self, ev) /\
     last ev = Some (Logged ERROR "Parse errror %s parsing message.") /\
     parse_calls ev = [data]) /\
  forall rfds self',
    parse_calls (_rthr_processSelectedReadFDs rfds self').2
    `sublist_of` ((fun rfd => rfd.2.1) <$> rfds).
Proof.
  intros Hocc HP. split.
  - assert (Hf : find data eoleol <> -1).
    { intros Hf. apply find_none in Hf. contradiction. }
    rewrite sipByteConsumer_parse_error by assumption.
    eexists. split; [reflexivity|]. split; reflexivity.
  - intros rfds self'. apply _rthr_processSelectedReadFDs_parse_calls.
Qed.

(** *** Protocol errors *)



(** *** Handlers come and go *)

(** X14. Registering an [AORHandler] for an AOR that has none succeeds, the
    handler is then the one of the AOR, and removing it gives back the
    transport as it was before the registration. *)
Theorem handler_add_then_remove (aor : AOR) (handler : Handler) (self : t) :
  isinstance_AORHandler handler = true ->
  _sptr_dialogHandlers self !! aor = None ->
  exists self1 ev1 ev2,
    addDialogHandlerForAOR aor handler self = (Ok (), self1, ev1) /\
    _sptr_dialogHandlers self1 !! aor = Some handler /\
    removeDialogHandlerForAOR aor self1 = (Ok (), self, ev2).
Proof.
  intros Hi Hn.
  assert (Hl : _sptr_dialogHandlers
                 (set_dialogHandlers (<[aor:=handler]>) self) !! aor
               = Some handler) by apply lookup_insert_eq.
  exists (set_dialogHandlers (<[aor:=handler]>) self). eexists _, _.
  split; [|split; [exact Hl|]].
  - unfold addDialogHandlerForAOR. rewrite Hi. simpl.
    unfold bind, get. simpl.
    rewrite bool_decide_eq_false_2 by (rewrite Hn; intros [? [=]]).
    reflexivity.
  - unfold removeDialogHandlerForAOR, bind, get. simpl.
    rewrite bool_decide_eq_true_2 by (rewrite lookup_insert_eq; eauto).
    simpl. destruct self as [msgs pds eds hdlrs sup w].
    unfold set_dialogHandlers. simpl in *.
    rewrite (delete_insert_id hdlrs aor handler Hn). reflexivity.
Qed.

(** An object that is no [AORHandler] is refused with [TypeError], whatever
    the AOR, and nothing is registered. *)
Lemma addDialogHandlerForAOR_TypeError (aor : AOR) (handler : Handler)
    (self : t) :
  isinstance_AORHandler handler = false ->
  addDialogHandlerForAOR aor handler self
  = (Raise (TypeError "instance is not of type AORHandler"), self, []).
Proof. intros Hi. unfold addDialogHandlerForAOR. rewrite Hi. reflexivity. Qed.

(** *** Grouping dialogs *)

(** [removeDialog]; a dialog without a [dialogID] raises [AttributeError]
    when it is read, which is passed over. *)
Definition removeDialog (dlg : Dialog) : M unit :=
  let! self := get in
  let pdid := provisionalDialogID dlg (world self) in
  (if bool_decide (is_Some (_sptr_provisionalDialogs self !! pdid))
   then modify (set_provisionalDialogs (delete pdid)) else ret ());;;
  try_except
    (let! did := attr "dialogID" (dialogID dlg (world self)) in
     let! self := get in
     if bool_decide (is_Some (_sptr_establishedDialogs self !! did))
     then modify (set_establishedDialogs (delete did)) else ret ())
    (fun e => match e with AttributeError _ => ret () | _ => raise e end).

(** The transport after [updateDialogGrouping]. *)
Definition grouped (dlg : Dialog) (self : t) : t :=
  let pdid := provisionalDialogID dlg (world self) in
  match dialogID dlg (world self) with
  | Some did =>
      set_establishedDialogs
        (fun eds => match eds !! did with
                    | Some _ => eds
                    | None => <[did := dlg]> eds
                    end)
        (set_provisionalDialogs (delete pdid) self)
  | None =>
      set_provisionalDialogs
        (fun pds => match pds !! pdid with
                    | Some _ => pds
                    | None => <[pdid := dlg]> pds
                    end) self
  end.

Lemma set_provisionalDialogs_id self :
  set_provisionalDialogs (fun pds => pds) self = self.
Proof. destruct self. reflexivity. Qed.

Lemma set_establishedDialogs_id self :
  set_establishedDialogs (fun eds => eds) self = self.
Proof. destruct self. reflexivity. Qed.

Lemma updateDialogGrouping_grouped dlg self :
  (updateDialogGrouping dlg self).1 = (Ok (), grouped dlg self).
Proof.
  unfold updateDialogGrouping, grouped.
  cbv beta iota zeta delta [bind get log emit ret modify].
  destruct (dialogID dlg (world self)) as [did|].
  - destruct (_sptr_provisionalDialogs self
                !! provisionalDialogID dlg (world self)) as [d|] eqn:Ep;
      destruct (_sptr_establishedDialogs self !! did) as [d'|] eqn:Ee;
      repeat (first [ rewrite bool_decide_eq_true_2 by eauto
                    | rewrite bool_decide_eq_false_2 by (intros [? [=]]) ]);
      simpl; destruct self as [msgs pds eds hdlrs sup w];
      unfold set_establishedDialogs, set_provisionalDialogs; simpl in *;
      rewrite ?Ee, ?(delete_id pds _ Ep); reflexivity.
  - destruct (_sptr_provisionalDialogs self
                !! provisionalDialogID dlg (world self)) as [d|] eqn:Ep;
      repeat (first [ rewrite bool_decide_eq_true_2 by eauto
                    | rewrite bool_decide_eq_false_2 by (intros [? [=]]) ]);
      simpl; destruct self as [msgs pds eds hdlrs sup w];
      unfold set_provisionalDialogs; simpl in *; rewrite ?Ep; reflexivity.
Qed.


(** X15. [updateDialogGrouping] never raises, and afterwards the dialog is filed
    where its state says: an established dialog is no longer provisional and
    its dialog ID is taken, by itself unless another dialog held it before,
    which stays; a dialog that is not established is filed under its
    provisional ID, unless another dialog held it before, and the
    established dialogs are untouched. Messages, handlers, the sockets and
    the other layers are untouched in both cases. *)
Theorem updateDialogGrouping_files (dlg : Dialog) (self : t) :
  exists self' ev,
    updateDialogGrouping dlg self = (Ok (), self', ev) /\
    _sptr_messages self' = _sptr_messages self /\
    _sptr_dialogHandlers self' = _sptr_dialogHandlers self /\
    super self' = super self /\ world self' = world self /\
    let pdid := provisionalDialogID dlg (world self) in
    match dialogID dlg (world self) with
    | Some did =>
        _sptr_provisionalDialogs self' !! pdid = None /\
        (forall k, k <> pdid ->
           _sptr_provisionalDialogs self' !! k
           = _sptr_provisionalDialogs self !! k) /\
        _sptr_establishedDialogs self' !! did
        = Some (default dlg (_sptr_establishedDialogs self !! did)) /\
        (forall k, k <> did ->
           _sptr_establishedDialogs self' !! k
           = _sptr_establishedDialogs self !! k)
    | None =>
        _sptr_establishedDialogs self' = _sptr_establishedDialogs self /\
        _sptr_provisionalDialogs self' !! pdid
        = Some (default dlg (_sptr_provisionalDialogs self !! pdid)) /\
        (forall k, k <> pdid ->
           _sptr_provisionalDialogs self' !! k
           = _sptr_provisionalDialogs self !! k)
    end.
Proof.
  pose proof (updateDialogGrouping_grouped dlg self) as Hg.
  destruct (updateDialogGrouping dlg self) as [[r s'] ev]. simpl in Hg.
  injection Hg as -> ->. eexists _, _. split; [reflexivity|].
  unfold grouped. destruct self as [msgs pds eds hdlrs sup w]. simpl.
  destruct (dialogID dlg w) as [did|]; simpl.
  - repeat split; try reflexivity.
    + apply lookup_delete_eq.
    + intros k Hk. apply lookup_delete_ne. congruence.
    + destruct (eds !! did) as [d|] eqn:Ee; simpl;
        [exact Ee | apply lookup_insert_eq].
    + intros k Hk. destruct (eds !! did) as [d|] eqn:Ee;
        [reflexivity | apply lookup_insert_ne; congruence].
  - repeat split; try reflexivity.
    + destruct (pds !! provisionalDialogID dlg w) as [d|] eqn:Ep; simpl;
        [exact Ep | apply lookup_insert_eq].
    + intros k Hk. destruct (pds !! provisionalDialogID dlg w) as [d|] eqn:Ep;
        [reflexivity | apply lookup_insert_ne; congruence].
Qed.

Lemma grouped_idempotent dlg self :
  grouped dlg (grouped dlg self) = grouped dlg self.
Proof.
  destruct self as [msgs pds eds hdlrs sup w]. unfold grouped at 2. simpl.
  destruct (dialogID dlg w) as [did|] eqn:Ed.
  - unfold grouped, set_establishedDialogs, set_provisionalDialogs. simpl.
    rewrite Ed. simpl. rewrite delete_delete_eq.
    destruct (eds !! did) as [d|] eqn:Ee; [rewrite Ee; reflexivity|].
    rewrite lookup_insert_eq. reflexivity.
  - unfold grouped, set_provisionalDialogs. simpl. rewrite Ed. simpl.
    destruct (pds !! provisionalDialogID dlg w) as [d|] eqn:Ep;
      [rewrite Ep; reflexivity|].
    rewrite lookup_insert_eq. reflexivity.
Qed.

(** X16. Grouping a dialog a second time, its state being the same, changes
    nothing. *)
Theorem updateDialogGrouping_idempotent (dlg : Dialog) (self : t) :
  exists self' ev ev',
    updateDialogGrouping dlg self = (Ok (), self', ev) /\
    updateDialogGrouping dlg self' = (Ok (), self', ev').
Proof.
  pose proof (updateDialogGrouping_grouped dlg self) as Hg.
  pose proof (updateDialogGrouping_grouped dlg (grouped dlg self)) as Hg'.
  rewrite grouped_idempotent in Hg'.
  destruct (updateDialogGrouping dlg self) as [[r s'] ev]. simpl in Hg.
  injection Hg as -> ->.
  destruct (updateDialogGrouping dlg (grouped dlg self)) as [[r s'] ev'] eqn:E.
  simpl in Hg'. injection Hg' as -> ->.
  exists (grouped dlg self), ev, ev'. split; [reflexivity|exact E].
Qed.

(** The transport after [removeDialog]. *)
Definition removed (dlg : Dialog) (self : t) : t :=
  let self1 :=
    set_provisionalDialogs (delete (provisionalDialogID dlg (world self))) self
  in
  match dialogID dlg (world self) with
  | Some did => set_establishedDialogs (delete did) self1
  | None => self1
  end.

Lemma removeDialog_removed dlg self :
  removeDialog dlg self = (Ok (), removed dlg self, []).
Proof.
  unfold removeDialog, removed.
  cbv beta iota zeta delta [bind get log emit ret modify try_except attr raise].
  destruct (_sptr_provisionalDialogs self
              !! provisionalDialogID dlg (world self)) as [d|] eqn:Ep;
    repeat (first [ rewrite bool_decide_eq_true_2 by eauto
                  | rewrite bool_decide_eq_false_2 by (intros [? [=]]) ]);
    simpl.
  - destruct (dialogID dlg (world self)) as [did|]; simpl; [|reflexivity].
    destruct (_sptr_establishedDialogs self !! did) as [d'|] eqn:Ee;
      repeat (first [ rewrite bool_decide_eq_true_2 by eauto
                    | rewrite bool_decide_eq_false_2 by (intros [? [=]]) ]);
      simpl; [reflexivity|].
    destruct self as [msgs pds eds hdlrs sup w].
    unfold set_establishedDialogs, set_provisionalDialogs; simpl in *.
    rewrite (delete_id eds _ Ee). reflexivity.
  - destruct (dialogID dlg (world self)) as [did|]; simpl.
    + destruct (_sptr_establishedDialogs self !! did) as [d'|] eqn:Ee;
        repeat (first [ rewrite bool_decide_eq_true_2 by eauto
                      | rewrite bool_decide_eq_false_2 by (intros [? [=]]) ]);
        simpl; destruct self as [msgs pds eds hdlrs sup w];
        unfold set_establishedDialogs, set_provisionalDialogs; simpl in *;
        rewrite ?(delete_id eds _ Ee), ?(delete_id pds _ Ep); reflexivity.
    + destruct self as [msgs pds eds hdlrs sup w].
      unfold set_provisionalDialogs; simpl in *.
      rewrite (delete_id pds _ Ep). reflexivity.
Qed.


(** X17. [removeDialog] never raises and is silent; afterwards no dialog is
    filed under the provisional ID of the dialog, nor under its dialog ID
    when it has one, whichever dialog was filed there; every other entry,
    the messages, the handlers, the sockets and the other layers are as
    before. *)
Theorem removeDialog_forgets (dlg : Dialog) (self : t) :
  exists self',
    removeDialog dlg self = (Ok (), self', []) /\
    _sptr_messages self' = _sptr_messages self /\
    _sptr_dialogHandlers self' = _sptr_dialogHandlers self /\
    super self' = super self /\ world self' = world self /\
    let pdid := provisionalDialogID dlg (world self) in
    _sptr_provisionalDialogs self' !! pdid = None /\
    (forall k, k <> pdid ->
       _sptr_provisionalDialogs self' !! k = _sptr_provisionalDialogs self !! k) /\
    match dialogID dlg (world self) with
    | Some did =>
        _sptr_establishedDialogs self' !! did = None /\
        (forall k, k <> did ->
           _sptr_establishedDialogs self' !! k
           = _sptr_establishedDialogs self !! k)
    | None => _sptr_establishedDialogs self' = _sptr_establishedDialogs self
    end.
Proof.
  exists (removed dlg self). split; [apply removeDialog_removed|].
  unfold removed. destruct self as [msgs pds eds hdlrs sup w]. simpl.
  destruct (dialogID dlg w) as [did|]; simpl; repeat split;
    try reflexivity; try apply lookup_delete_eq;
    intros k Hk; apply lookup_delete_ne; congruence.
Qed.

(** X18. A dialog whose IDs were free is filed by [updateDialogGrouping] and
    taken out again by [removeDialog]: the transport is then as it was
    before the dialog was filed. *)
Theorem group_then_remove (dlg : Dialog) (self : t) :
  _sptr_provisionalDialogs self !! provisionalDialogID dlg (world self) = None ->
  (forall did, dialogID dlg (world self) = Some did ->
     _sptr_establishedDialogs self !! did = None) ->
  exists self1 ev,
    updateDialogGrouping dlg self = (Ok (), self1, ev) /\
    removeDialog dlg self1 = (Ok (), self, []).
Proof.
  intros Hp He.
  pose proof (updateDialogGrouping_grouped dlg self) as Hg.
  destruct (updateDialogGrouping dlg self) as [[r s'] ev]. simpl in Hg.
  injection Hg as -> ->. eexists _, _. split; [reflexivity|].
  rewrite removeDialog_removed. do 2 f_equal.
  unfold removed, grouped. destruct self as [msgs pds eds hdlrs sup w].
  simpl in *. destruct (dialogID dlg w) as [did|] eqn:Ed; simpl.
  - rewrite Ed. specialize (He did eq_refl).
    unfold set_establishedDialogs, set_provisionalDialogs. simpl.
    rewrite He, delete_delete_eq, (delete_id pds _ Hp),
      (delete_insert_id eds did dlg He). reflexivity.
  - rewrite Ed. unfold set_provisionalDialogs. simpl.
    rewrite Hp, (delete_insert_id pds _ dlg Hp). reflexivity.
Qed.

(** X19. A parsed message other than an ACK that has a From tag, a Call-ID that
    is not empty and no To tag goes to the handler of the AOR of its To
    header: without a handler it is dropped; when the handler wants no
    dialog the message ends there; else the dialog consumes the message and
    is then filed by [updateDialogGrouping].  An exception of the handler
    or of the dialog is passed on, and the dialog is then not filed. *)
Theorem dialog_creating_message_routing (msg : Message)
    (call_id from_tag : string) (self : t) :
  type msg <> Request "ACK" ->
  FromHeader_tag msg = Some from_tag ->
  Call_IDHeader msg = Some call_id -> call_id <> "" ->
  ToHeader_tag msg = None ->
  (consumeMessage msg self).1
  = match _sptr_dialogHandlers self !! ToHeader_aor msg with
    | None => (Ok (), recorded msg self)
    | Some hdlr =>
        match new_dialog_from_request hdlr msg (recorded msg self) with
        | (Raise e, self1) => (Raise e, self1)
        | (Ok None, self1) => (Ok (), self1)
        | (Ok (Some dlg), self1) =>
            match consume_message dlg msg self1 with
            | (Raise e, self2) => (Raise e, self2)
            | (Ok _, self2) => (updateDialogGrouping dlg self2).1
            end
        end
    end.
Proof.
  intros Hty Hf Hc Hne Ht.
  unfold consumeMessage. rewrite Hf, Hc, Ht.
  rewrite bool_decide_eq_false_2 by assumption.
  rewrite (bool_decide_eq_false_2 (call_id = "")) by assumption.
  unfold consumeDialogCreatingMessage.
  cbv beta iota zeta delta [bind get log emit ret modify call].
  change (set_messages (fun msgs => msgs ++ [msg]) self)
    with (recorded msg self).
  change (_sptr_dialogHandlers (recorded msg self))
    with (_sptr_dialogHandlers self).
  destruct (_sptr_dialogHandlers self !! ToHeader_aor msg) as [hdlr|];
    [|reflexivity].
  destruct (new_dialog_from_request hdlr msg (recorded msg self))
    as [[[dlg|]|e] self1]; try reflexivity.
  destruct (consume_message dlg msg self1) as [[[]|e] self2];
    [|reflexivity].
  destruct (updateDialogGrouping dlg self2) as [[r self3] ev]. reflexivity.
Qed.

End Demultiplexer.

(** *** A transport with stand-ins for the other layers *)

(** A parser for the examples: data that starts with [I] is an INVITE for
    bob@biloxi.com, data that starts with [2] a 200 response in a dialog;
    anything else fails to parse. *)
Definition example_Parse (data : bytes) : result Message :=
  match data with
  | x49 :: _ =>
      Ok (mkMessage (Request "INVITE") (Some "1928301774") (Some "a84b4c76e66710")
            None "bob@biloxi.com" (Z.of_nat (length data)))
  | x32 :: _ =>
      Ok (mkMessage (Response 200) (Some "1928301774") (Some "a84b4c76e66710")
            (Some "a6c85cf") "bob@biloxi.com" (Z.of_nat (length data)))
  | _ => Raise ParseError
  end.

Definition example_ProvisionalDialogID (did : EstablishedDialogID)
  : ProvisionalDialogID := [did.1.1; did.1.2].

(** Handlers that want no dialog, dialogs that take every message. *)
Definition no_dialog (hdlr : Handler) (msg : Message) (self : t unit)
  : result (option Dialog) * t unit := (Ok None, self).
Definition takes_all (dlg : Dialog) (msg : Message) (self : t unit)
  : result unit * t unit := (Ok (), self).

Definition fresh : t unit := mk unit [] ∅ ∅ ∅ Transport.init ().

Definition example_consumer :=
  sipByteConsumer unit example_Parse example_ProvisionalDialogID no_dialog
    takes_all (fun _ _ => []) (fun _ _ => None).

Definition example_sck : Transport.SocketProxy :=
  Transport.mkProxy
    (Transport.mkDesc (Some Transport.AF_INET) Transport.SOCK_DGRAM
       (Transport.HostName "127.0.0.1") 5060 None None None false None None)
    (Transport.OSSocket 7) true 1.

Definition example_peer : Transport.Name * Z :=
  (Transport.HostName "127.0.0.1", 49152).

Example example_consumer_invite :
  (example_consumer example_sck example_peer [x49; x0d; x0a; x0d; x0a] fresh).1.1
  = Ok 5.
Proof. reflexivity. Qed.

Example example_consumer_garbage :
  (example_consumer example_sck example_peer [x58; x0d; x0a; x0d; x0a] fresh).1
  = (Ok 0, fresh).
Proof. reflexivity. Qed.



Lemma parse_failure_dropped_witness :
  exists ev,
    example_consumer example_sck example_peer [x58; x0d; x0a; x0d; x0a] fresh
    = (Ok 0, fresh, ev).
Proof.
  destruct (parse_failure_dropped unit example_Parse
              example_ProvisionalDialogID no_dialog takes_all
              (fun _ _ => []) (fun _ _ => None) example_sck example_peer
              [x58; x0d; x0a; x0d; x0a] fresh)
    as [(ev & H & _) _].
  - exists [x58], []. reflexivity.
  - reflexivity.
  - exists ev. exact H.
Defined.

Definition example_response : Message :=
  mkMessage (Response 200) (Some "1928301774") (Some "a84b4c76e66710")
    (Some "a6c85cf") "bob@biloxi.com" 5.

Lemma in_dialog_message_routing_witness :
  (consumeMessage unit example_ProvisionalDialogID no_dialog takes_all
     (fun _ _ => []) (fun _ _ => None) example_response fresh).1
  = (Raise AssertionError, recorded unit example_response fresh).
Proof.
  rewrite (in_dialog_message_routing unit example_ProvisionalDialogID
             no_dialog takes_all (fun _ _ => []) (fun _ _ => None)
             example_response "a84b4c76e66710" "1928301774" "a6c85cf" fresh);
    [reflexivity|discriminate|reflexivity|reflexivity|discriminate|reflexivity].
Defined.


Definition one_handler : t unit :=
  set_dialogHandlers unit (<["bob@biloxi.com" := AORHandlerInstance 1]>) fresh.

Lemma handler_registration_errors_witness :
  addDialogHandlerForAOR unit "bob@biloxi.com" (AORHandlerInstance 2) one_handler
  = (Raise (KeyError "Handler already registered for AOR"), one_handler, []) /\
  removeDialogHandlerForAOR unit "alice@atlanta.com" one_handler
  = (Raise (KeyError "AOR handler not registered for AOR"), one_handler, []).
Proof.
  split.
  - apply (proj1 (handler_registration_errors unit "bob@biloxi.com"
                    (AORHandlerInstance 2) one_handler)); [reflexivity|].
    exists (AORHandlerInstance 1). apply lookup_insert_eq.
  - apply (proj2 (handler_registration_errors unit "alice@atlanta.com"
                    (AORHandlerInstance 2) one_handler)).
    apply lookup_insert_None. split; [apply lookup_empty|discriminate].
Defined.


Lemma handler_add_then_remove_witness :
  exists self1 ev1 ev2,
    addDialogHandlerForAOR unit "alice@atlanta.com" (AORHandlerInstance 2)
      one_handler = (Ok (), self1, ev1) /\
    _sptr_dialogHandlers unit self1 !! "alice@atlanta.com"
    = Some (AORHandlerInstance 2) /\
    removeDialogHandlerForAOR unit "alice@atlanta.com" self1
    = (Ok (), one_handler, ev2).
Proof.
  apply (handler_add_then_remove unit "alice@atlanta.com"
           (AORHandlerInstance 2) one_handler); [reflexivity|].
  apply lookup_insert_None. split; [apply lookup_empty|discriminate].
Defined.

(** Dialogs known by their Call-ID and local tag; dialog 7 is established
    in the second world and not in the first. *)
Definition example_pdid (dlg : Dialog) (w : bool) : ProvisionalDialogID :=
  ["a84b4c76e66710"; "1928301774"].
Definition example_did (dlg : Dialog) (w : bool) : option EstablishedDialogID :=
  if w then Some ("a84b4c76e66710", "1928301774", "a6c85cf") else None.

Definition fresh_in (w : bool) : t bool := mk bool [] ∅ ∅ ∅ Transport.init w.

Lemma group_then_remove_witness :
  exists self1 ev,
    updateDialogGrouping bool example_pdid example_did 7%nat (fresh_in true)
    = (Ok (), self1, ev) /\
    removeDialog bool example_pdid example_did 7%nat self1
    = (Ok (), fresh_in true, []).
Proof.
  apply (group_then_remove bool example_pdid example_did 7%nat (fresh_in true)).
  - apply lookup_empty.
  - intros did _. apply lookup_empty.
Defined.

Example group_established_ex :
  (updateDialogGrouping bool example_pdid example_did 7%nat (fresh_in true)).1
  = (Ok (),
     mk bool [] ∅ {[ ("a84b4c76e66710", "1928301774", "a6c85cf") := 7%nat ]} ∅
       Transport.init true).
Proof. reflexivity. Qed.

Example group_provisional_ex :
  (updateDialogGrouping bool example_pdid example_did 7%nat (fresh_in false)).1
  = (Ok (),
     mk bool [] {[ ["a84b4c76e66710"; "1928301774"] := 7%nat ]} ∅ ∅
       Transport.init false).
Proof. reflexivity. Qed.

(** A handler that makes dialog 7 of every request. *)
Definition makes_dialog (hdlr : Handler) (msg : Message) (self : t unit)
  : result (option Dialog) * t unit := (Ok (Some 7%nat), self).

Definition example_invite : Message :=
  mkMessage (Request "INVITE") (Some "1928301774") (Some "a84b4c76e66710")
    None "bob@biloxi.com" 5.

Lemma dialog_creating_message_routing_witness :
  (consumeMessage unit example_ProvisionalDialogID makes_dialog takes_all
     (fun _ _ => ["a84b4c76e66710"; "1928301774"]) (fun _ _ => None)
     example_invite one_handler).1
  = (Ok (),
     mk unit [example_invite] {[ ["a84b4c76e66710"; "1928301774"] := 7%nat ]} ∅
       {[ "bob@biloxi.com" := AORHandlerInstance 1 ]} Transport.init ()).
Proof.
  rewrite (dialog_creating_message_routing unit example_ProvisionalDialogID
             makes_dialog takes_all
             (fun _ _ => ["a84b4c76e66710"; "1928301774"]) (fun _ _ => None)
             example_invite "a84b4c76e66710" "1928301774" one_handler);
    [reflexivity|discriminate|reflexivity|reflexivity|discriminate|reflexivity].
Defined.

End SIPTransport.

(** ** The transaction manager ([sipparty/sip/transaction/manager.py]) *)

Module TransactionManager.
Import Py.

(** Modelled from the spec: [Transaction.types] (in [transaction/base.py],
    not part of the sources at hand) names the roles client, server and
    one-shot; a type is the text that [new_transaction] appends to
    ['_new_transaction_']. *)
Inductive TransactionType := client | server | oneshot.

Definition type_name (ttype : TransactionType) : string :=
  match ttype with
  | client => "client"
  | server => "server"
  | oneshot => "oneshot"
  end.

#[global] Instance TransactionType_eq_dec : EqDecision TransactionType.
Proof. solve_decision. Defined.

#[global] Instance TransactionType_countable : Countable TransactionType.
Proof.
  refine (inj_countable'
            (fun t => match t with client => 0 | server => 1 | oneshot => 2 end)%nat
            (fun n => match n with 0 => client | 1 => server | _ => oneshot end)%nat
            _).
  intros []; reflexivity.
Defined.

(** What the manager reads of a message: its type (a method name or a
    response code), the branch of its Via header and the method of its CSeq
    header. *)
Record Message := mkMessage {
  type : SIPTransport.MessageType;
  branch : string;
  reqtype : string
}.

Definition isrequest (msg : Message) : bool :=
  match type msg with
  | SIPTransport.Request _ => true
  | SIPTransport.Response _ => false
  end.

Definition type_text (msg : Message) : string :=
  match type msg with
  | SIPTransport.Request method => method
  | SIPTransport.Response code => pretty code
  end.

(** The transaction classes the manager instantiates. *)
Inductive Transaction :=
  | InviteClientTransaction
  | NonInviteClientTransaction
  | InviteServerTransaction
  | NonInviteServerTransaction
  | OneShotTransaction.

(** Modelled from the spec: [prot.TransactionID] (not part of the sources
    at hand) is the key (type, branch, method). *)
Abbreviation TransactionID := (TransactionType * string * string)%type.

Record t := mk {
  transactions : gmap TransactionID Transaction;
  terminated_transactions : gmap TransactionID Transaction
}.

Definition init : t := {| transactions := ∅; terminated_transactions := ∅ |}.

(** The positional arguments of a call. *)
Inductive Arg :=
  | AType (ttype : TransactionType)
  | AMsg (msg : Message)
  | ATransport.

(** [transaction_key_for_message(ttype, msg)], called with [args]. *)
Definition transaction_key_for_message (args : list Arg) : result TransactionID :=
  match args with
  | [AType ttype; AMsg msg] => Ok (ttype, branch msg, reqtype msg)
  | _ => Raise (TypeError "transaction_key_for_message() takes 3 arguments")
  end.

(** The factories, called with [args] after [self]. *)
Definition _new_transaction_client (args : list Arg) : result Transaction :=
  match args with
  | [AMsg msg] =>
      if negb (isrequest msg) then Raise AssertionError
      else if bool_decide (type msg = SIPTransport.Request "INVITE")
      then Ok InviteClientTransaction
      else Ok NonInviteClientTransaction
  | _ => Raise (TypeError "_new_transaction_client() takes 2 arguments")
  end.

Definition _new_transaction_server (args : list Arg) : result Transaction :=
  match args with
  | [AMsg msg] =>
      if negb (isrequest msg) then Raise AssertionError
      else if bool_decide (type msg = SIPTransport.Request "INVITE")
      then Ok InviteServerTransaction
      else Ok NonInviteServerTransaction
  | _ => Raise (TypeError "_new_transaction_server() takes 2 arguments")
  end.

Definition _new_trasaction_oneshot (args : list Arg) : result Transaction :=
  match args with
  | [AMsg msg] =>
      if negb (bool_decide (type msg = SIPTransport.Request "ACK"))
      then Raise AssertionError
      else Ok OneShotTransaction
  | _ => Raise (TypeError "_new_trasaction_oneshot() takes 2 arguments")
  end.

(** The attributes of a [TransactionManager]: the names bound in the body of
    the class and by [__init__].  A factory is kept with what it does; of the
    other attributes only the name matters here. *)
Inductive Attribute :=
  | Factory (call : list Arg -> result Transaction)
  | Member.

Definition attributes : list (string * Attribute) :=
  [ ("lookup_sentinel", Member);
    ("transport", Member);
    ("transaction_key_for_message", Member);
    ("__init__", Member);
    ("transactions", Member);
    ("terminated_transactions", Member);
    ("transaction_for_outbound_message", Member);
    ("transaction_for_inbound_message", Member);
    ("__del__", Member);
    ("add_transaction_for_message", Member);
    ("lookup_transaction", Member);
    ("_new_transaction_client", Factory _new_transaction_client);
    ("_new_transaction_server", Factory _new_transaction_server);
    ("_new_trasaction_oneshot", Factory _new_trasaction_oneshot);
    ("new_transaction", Member) ].

Fixpoint assoc (name : string) (l : list (string * Attribute)) : option Attribute :=
  match l with
  | [] => None
  | (n, a) :: rest => if bool_decide (n = name) then Some a else assoc name rest
  end.

(** [getattr(self, name)] *)
Definition getattr (name : string) : result Attribute :=
  match assoc name attributes with
  | Some a => Ok a
  | None => Raise (AttributeError name)
  end.

(** Calling an attribute. *)
Definition call (a : Attribute) (args : list Arg) : result Transaction :=
  match a with
  | Factory f => f args
  | Member => Raise (TypeError "unexpected call")
  end.

Definition M (A : Type) : Type := t -> result A * t.

Definition add_transaction_for_message (ttype : TransactionType)
    (trans : Transaction) (message : Message) : M unit :=
  fun self =>
    match transaction_key_for_message [AMsg message] with
    | Raise e => (Raise e, self)
    | Ok tk =>
        (Ok (), {| transactions := <[tk := trans]> (transactions self);
                   terminated_transactions := terminated_transactions self |})
    end.

Definition lookup_transaction (ttype : TransactionType) (message : Message)
  : M Transaction :=
  fun self =>
    match transaction_key_for_message [AType ttype; AMsg message] with
    | Raise e => (Raise e, self)
    | Ok tk =>
        match transactions self !! tk with
        | Some trans => (Ok trans, self)
        | None =>
            (Raise (KeyError ("%s; message type " +:+ type_text message)), self)
        end
    end.

Definition new_transaction (ttype : TransactionType) (args : list Arg)
  : M Transaction :=
  fun self =>
    match getattr ("_new_transaction_" +:+ type_name ttype) with
    | Raise e => (Raise e, self)
    | Ok a => (call a args, self)
    end.

Definition is_KeyError (e : exn) : bool :=
  match e with KeyError _ => true | _ => false end.

Definition transaction_for_outbound_message (msg : Message) : M Transaction :=
  fun self =>
    if isrequest msg then
      match getattr "new_transaction_for_request" with
      | Raise e => (Raise e, self)
      | Ok a => (call a [AType client; AMsg msg], self)
      end
    else
      match lookup_transaction server msg self with
      | (Ok trans, self) => (Ok trans, self)
      | (Raise e, self) =>
          if is_KeyError e then
            if match type msg with
               | SIPTransport.Response code =>
                   (200 <=? code) && (code <? 300)
               | SIPTransport.Request _ => false
               end && bool_decide (reqtype msg = "INVITE")
            then new_transaction oneshot [AMsg msg; ATransport] self
            else (Raise e, self)
          else (Raise e, self)
      end.

Definition transaction_for_inbound_message (msg : Message) : M Transaction :=
  fun self =>
    if isrequest msg then
      match getattr "new_transaction_for_request" with
      | Raise e => (Raise e, self)
      | Ok a => (call a [AType server; AMsg msg], self)
      end
    else lookup_transaction client msg self.

(** An INVITE, and a 200 response to it. *)
Definition invite : Message :=
  mkMessage (SIPTransport.Request "INVITE") "z9hG4bK776asdhds" "INVITE".
Definition ok_to_invite : Message :=
  mkMessage (SIPTransport.Response 200) "z9hG4bK776asdhds" "INVITE".

(** *** Attribute lookup *)

Lemma getattr_new_transaction_for_request :
  getattr "new_transaction_for_request"
  = Raise (AttributeError "new_transaction_for_request").
Proof. reflexivity. Qed.

(** Whatever text a transaction type is, ['_new_transaction_' + ttype] only
    names the client and the server factory: the one-shot factory is bound
    to another name. *)
Lemma getattr_new_transaction s a :
  getattr ("_new_transaction_" +:+ s) = Ok a -> s = "client" \/ s = "server".
Proof.
  unfold getattr, attributes, assoc.
  repeat match goal with
         | |- context [bool_decide (?n = ?m)] =>
             destruct (decide (n = m)) as [Hx|Hx];
             [ vm_compute in Hx;
               first [ discriminate Hx | injection Hx as <-; auto ]
             | rewrite (bool_decide_eq_false_2 _ Hx); clear Hx ]
         end.
  discriminate.
Qed.

(** *** Outbound requests *)

Lemma outbound_request_raises msg self :
  isrequest msg = true ->
  transaction_for_outbound_message msg self
  = (Raise (AttributeError "new_transaction_for_request"), self).
Proof.
  intros H. unfold transaction_for_outbound_message. rewrite H. reflexivity.
Qed.

Lemma inbound_request_raises msg self :
  isrequest msg = true ->
  transaction_for_inbound_message msg self
  = (Raise (AttributeError "new_transaction_for_request"), self).
Proof.
  intros H. unfold transaction_for_inbound_message. rewrite H. reflexivity.
Qed.

Lemma add_transaction_for_message_raises ttype trans message self :
  add_transaction_for_message ttype trans message self
  = (Raise (TypeError "transaction_key_for_message() takes 3 arguments"), self).
Proof. reflexivity. Qed.

(** C7, on the code: for an outbound INVITE the manager raises
    [AttributeError], the method [new_transaction_for_request] that
    [transaction_for_outbound_message] calls being bound nowhere; no client
    transaction is made and the table of transactions stays empty. *)
Theorem outbound_invite_raises :
  transaction_for_outbound_message invite init
  = (Raise (AttributeError "new_transaction_for_request"), init) /\
  transactions init !! (client, branch invite, reqtype invite) = None.
Proof. split; reflexivity. Qed.

(** *** Outbound responses *)

Definition is_2xx_to_invite (msg : Message) : bool :=
  match type msg with
  | SIPTransport.Response code => (200 <=? code) && (code <? 300)
  | SIPTransport.Request _ => false
  end && bool_decide (reqtype msg = "INVITE").

Lemma outbound_response_matched msg trans self :
  isrequest msg = false ->
  transactions self !! (server, branch msg, reqtype msg) = Some trans ->
  transaction_for_outbound_message msg self = (Ok trans, self).
Proof.
  intros Hr Hl. unfold transaction_for_outbound_message, lookup_transaction.
  rewrite Hr. simpl. rewrite Hl. reflexivity.
Qed.

(** An unmatched response that is not a 2xx to an INVITE: the [KeyError] of
    the lookup, with the type of the message in it, and the table as it
    was. *)
Lemma outbound_response_unmatched msg self :
  isrequest msg = false ->
  transactions self !! (server, branch msg, reqtype msg) = None ->
  is_2xx_to_invite msg = false ->
  transaction_for_outbound_message msg self
  = (Raise (KeyError ("%s; message type " +:+ type_text msg)), self).
Proof.
  intros Hr Hl H2. unfold transaction_for_outbound_message, lookup_transaction.
  rewrite Hr. simpl. rewrite Hl. simpl.
  unfold is_2xx_to_invite in H2. rewrite H2. reflexivity.
Qed.

(** An unmatched 2xx to an INVITE: [AttributeError], whatever the table. *)
Lemma outbound_2xx_to_invite_unmatched msg self :
  isrequest msg = false ->
  transactions self !! (server, branch msg, reqtype msg) = None ->
  is_2xx_to_invite msg = true ->
  transaction_for_outbound_message msg self
  = (Raise (AttributeError "_new_transaction_oneshot"), self).
Proof.
  intros Hr Hl H2. unfold transaction_for_outbound_message, lookup_transaction.
  rewrite Hr. simpl. rewrite Hl. simpl.
  unfold is_2xx_to_invite in H2. rewrite H2. reflexivity.
Qed.

(** C8, on the code: for an outbound 200 response to an INVITE with no
    server transaction in the table the manager raises [AttributeError]:
    [new_transaction] looks for [_new_transaction_oneshot], and the factory
    is bound to the name [_new_trasaction_oneshot].  No one-shot transaction
    is returned; the table is as it was. *)
Theorem outbound_2xx_invite_raises :
  transaction_for_outbound_message ok_to_invite init
  = (Raise (AttributeError "_new_transaction_oneshot"), init).
Proof. reflexivity. Qed.

(** The factory itself, were it called as [new_transaction] calls it (the
    message and the transport after [self]), and were it called with the
    message alone: it takes one argument, and asserts that the message is an
    ACK. *)
Lemma _new_trasaction_oneshot_rejects :
  _new_trasaction_oneshot [AMsg ok_to_invite; ATransport]
  = Raise (TypeError "_new_trasaction_oneshot() takes 2 arguments") /\
  _new_trasaction_oneshot [AMsg ok_to_invite] = Raise AssertionError.
Proof. split; reflexivity. Qed.


(** *** What the manager hands out *)

Lemma getattr_client :
  getattr ("_new_transaction_" +:+ type_name client)
  = Ok (Factory _new_transaction_client).
Proof. reflexivity. Qed.

Lemma getattr_server :
  getattr ("_new_transaction_" +:+ type_name server)
  = Ok (Factory _new_transaction_server).
Proof. reflexivity. Qed.

Lemma getattr_oneshot :
  getattr ("_new_transaction_" +:+ type_name oneshot)
  = Raise (AttributeError "_new_transaction_oneshot").
Proof. reflexivity. Qed.

(** The transaction class that fits a role and a request. *)
Definition is_invite (msg : Message) : bool :=
  bool_decide (type msg = SIPTransport.Request "INVITE").

(** X20. When [new_transaction] returns a transaction, the type was client or
    server, the only argument was a request, and the transaction is of the
    class of that role, the INVITE one for an INVITE and the other one for
    any other request; a one-shot transaction is never returned.  The
    manager is left as it was. *)
Theorem new_transaction_sound (ttype : TransactionType) (args : list Arg)
    (trans : Transaction) (self self' : t) :
  new_transaction ttype args self = (Ok trans, self') ->
  self' = self /\
  exists msg,
    args = [AMsg msg] /\ isrequest msg = true /\
    match ttype with
    | client =>
        trans = if is_invite msg then InviteClientTransaction
                else NonInviteClientTransaction
    | server =>
        trans = if is_invite msg then InviteServerTransaction
                else NonInviteServerTransaction
    | oneshot => False
    end.
Proof.
  unfold new_transaction. destruct ttype.
  - rewrite getattr_client. cbn [call]. intros [= H <-]. split; [reflexivity|].
    unfold _new_transaction_client in H.
    destruct args as [|[ | msg | ] [|? ?]]; try discriminate H.
    exists msg. split; [reflexivity|]. unfold is_invite.
    destruct (isrequest msg); simpl in H; [|discriminate H].
    split; [reflexivity|].
    destruct (bool_decide (type msg = SIPTransport.Request "INVITE"));
      congruence.
  - rewrite getattr_server. cbn [call]. intros [= H <-]. split; [reflexivity|].
    unfold _new_transaction_server in H.
    destruct args as [|[ | msg | ] [|? ?]]; try discriminate H.
    exists msg. split; [reflexivity|]. unfold is_invite.
    destruct (isrequest msg); simpl in H; [|discriminate H].
    split; [reflexivity|].
    destruct (bool_decide (type msg = SIPTransport.Request "INVITE"));
      congruence.
  - rewrite getattr_oneshot. discriminate.
Qed.

(** A request is given the transaction of its role. *)
Lemma new_transaction_for_a_request ttype msg self :
  isrequest msg = true -> ttype <> oneshot ->
  exists trans, new_transaction ttype [AMsg msg] self = (Ok trans, self).
Proof.
  intros Hr Ht. unfold new_transaction. destruct ttype; [| |congruence].
  - rewrite getattr_client. cbn [call _new_transaction_client]. rewrite Hr.
    simpl. destruct (bool_decide _); eauto.
  - rewrite getattr_server. cbn [call _new_transaction_server]. rewrite Hr.
    simpl. destruct (bool_decide _); eauto.
Qed.

Lemma lookup_transaction_state ttype msg self :
  (lookup_transaction ttype msg self).2 = self.
Proof.
  unfold lookup_transaction. simpl.
  destruct (transactions self !! _); reflexivity.
Qed.

Lemma new_transaction_state ttype args self :
  (new_transaction ttype args self).2 = self.
Proof.
  unfold new_transaction. destruct (getattr _); reflexivity.
Qed.

Lemma transaction_for_outbound_message_state msg self :
  (transaction_for_outbound_message msg self).2 = self.
Proof.
  unfold transaction_for_outbound_message.
  rewrite getattr_new_transaction_for_request.
  destruct (isrequest msg); [reflexivity|].
  unfold lookup_transaction. cbn [transaction_key_for_message].
  destruct (transactions self !! (server, branch msg, reqtype msg));
    [reflexivity|]. cbn [is_KeyError].
  destruct (_ && _); [apply new_transaction_state|reflexivity].
Qed.

Lemma transaction_for_inbound_message_state msg self :
  (transaction_for_inbound_message msg self).2 = self.
Proof.
  unfold transaction_for_inbound_message.
  rewrite getattr_new_transaction_for_request.
  destruct (isrequest msg); [reflexivity|]. apply lookup_transaction_state.
Qed.

(** X21. The transaction that [transaction_for_outbound_message] or
    [transaction_for_inbound_message] returns is one of the table: the
    message is a response, and the transaction is the one stored under the
    server key (outbound) or the client key (inbound) made of the branch and
    the CSeq method of the response.  Neither method makes a transaction,
    and neither changes the manager, whatever it returns or raises. *)
Theorem transactions_come_from_the_table (msg : Message) (self : t) :
  (transaction_for_outbound_message msg self).2 = self /\
  (transaction_for_inbound_message msg self).2 = self /\
  (forall trans,
     (transaction_for_outbound_message msg self).1 = Ok trans ->
     isrequest msg = false /\
     transactions self !! (server, branch msg, reqtype msg) = Some trans) /\
  (forall trans,
     (transaction_for_inbound_message msg self).1 = Ok trans ->
     isrequest msg = false /\
     transactions self !! (client, branch msg, reqtype msg) = Some trans).
Proof.
  split; [apply transaction_for_outbound_message_state|].
  split; [apply transaction_for_inbound_message_state|].
  unfold transaction_for_outbound_message, transaction_for_inbound_message.
  rewrite getattr_new_transaction_for_request.
  destruct (isrequest msg) eqn:Hr; [split; discriminate|].
  unfold lookup_transaction. cbn [transaction_key_for_message]. split.
  - intros trans.
    destruct (transactions self !! (server, branch msg, reqtype msg));
      [intros [= ->]; auto|]. cbn [is_KeyError].
    destruct (_ && _); [|discriminate].
    unfold new_transaction. rewrite getattr_oneshot. discriminate.
  - intros trans.
    destruct (transactions self !! (client, branch msg, reqtype msg));
      [intros [= ->]; auto|discriminate].
Qed.

(** *** A manager left to itself *)

(** The calls of the interface of the manager. *)
Inductive Call :=
  | Outbound (msg : Message)
  | Inbound (msg : Message)
  | Add (ttype : TransactionType) (trans : Transaction) (message : Message)
  | Lookup (ttype : TransactionType) (message : Message)
  | New (ttype : TransactionType) (args : list Arg).

(** The manager after a call, whatever the call returns or raises. *)
Definition after (c : Call) (self : t) : t :=
  match c with
  | Outbound msg => (transaction_for_outbound_message msg self).2
  | Inbound msg => (transaction_for_inbound_message msg self).2
  | Add ttype trans message =>
      (add_transaction_for_message ttype trans message self).2
  | Lookup ttype message => (lookup_transaction ttype message self).2
  | New ttype args => (new_transaction ttype args self).2
  end.

Definition after_all (calls : list Call) (self : t) : t :=
  foldl (fun self c => after c self) self calls.

(** X22. No sequence of calls of the manager puts a transaction in its table:
    [add_transaction_for_message] calls [transaction_key_for_message]
    without the type and raises [TypeError] before it stores anything, and
    no other method writes to the table.  So a manager whose table nothing
    else fills answers every outbound and every inbound message with an
    exception. *)
Theorem manager_never_stores (calls : list Call) (msg : Message) :
  after_all calls init = init /\
  (exists e,
     (transaction_for_outbound_message msg (after_all calls init)).1 = Raise e) /\
  (exists e,
     (transaction_for_inbound_message msg (after_all calls init)).1 = Raise e).
Proof.
  assert (Hs : forall c self, after c self = self).
  { intros [m|m|ty tr m|ty m|ty args] self; cbn [after].
    - apply transaction_for_outbound_message_state.
    - apply transaction_for_inbound_message_state.
    - reflexivity.
    - apply lookup_transaction_state.
    - apply new_transaction_state. }
  assert (Ha : forall self, after_all calls self = self).
  { unfold after_all. induction calls as [|c calls IH]; intros self;
      [reflexivity|]. cbn [foldl]. rewrite Hs. apply IH. }
  rewrite Ha. split; [reflexivity|].
  unfold transaction_for_outbound_message, transaction_for_inbound_message.
  rewrite getattr_new_transaction_for_request.
  destruct (isrequest msg); [split; eauto|].
  unfold lookup_transaction. cbn [transaction_key_for_message init transactions].
  rewrite !lookup_empty. cbn [is_KeyError]. split; [|eauto].
  destruct (_ && _); [|eauto].
  unfold new_transaction. rewrite getattr_oneshot. eauto.
Qed.

(** X23. A transaction filed by hand under the key of a request is the one a
    response with the branch and the CSeq method of the request is given,
    outbound for a server transaction and inbound for a client one, as often
    as the response comes. *)
Theorem response_finds_transaction_of_request (req resp : Message)
    (trans : Transaction) (self : t) :
  isrequest resp = false ->
  branch resp = branch req -> reqtype resp = reqtype req ->
  let filed ttype :=
    {| transactions := <[(ttype, branch req, reqtype req) := trans]>
                         (transactions self);
       terminated_transactions := terminated_transactions self |} in
  transaction_key_for_message [AType server; AMsg req]
  = Ok (server, branch req, reqtype req) /\
  transaction_for_outbound_message resp (filed server)
  = (Ok trans, filed server) /\
  transaction_for_inbound_message resp (filed client)
  = (Ok trans, filed client).
Proof.
  intros Hr Hb Hq filed. split; [reflexivity|].
  unfold transaction_for_outbound_message, transaction_for_inbound_message,
    lookup_transaction.
  rewrite Hr. cbn [transaction_key_for_message]. rewrite Hb, Hq.
  unfold filed. cbn [transactions]. rewrite !lookup_insert_eq.
  split; reflexivity.
Qed.

Lemma new_transaction_sound_witness :
  init = init /\
  exists msg,
    [AMsg invite] = [AMsg msg] /\ isrequest msg = true /\
    InviteServerTransaction
    = if is_invite msg then InviteServerTransaction
      else NonInviteServerTransaction.
Proof.
  apply (new_transaction_sound server [AMsg invite] InviteServerTransaction
           init init).
  reflexivity.
Defined.

Lemma response_finds_transaction_of_request_witness :
  let filed ttype :=
    {| transactions := <[(ttype, branch invite, reqtype invite)
                         := InviteServerTransaction]> (transactions init);
       terminated_transactions := terminated_transactions init |} in
  transaction_key_for_message [AType server; AMsg invite]
  = Ok (server, branch invite, reqtype invite) /\
  transaction_for_outbound_message ok_to_invite (filed server)
  = (Ok InviteServerTransaction, filed server) /\
  transaction_for_inbound_message ok_to_invite (filed client)
  = (Ok InviteServerTransaction, filed client).
Proof.
  apply (response_finds_transaction_of_request invite ok_to_invite
           InviteServerTransaction init); reflexivity.
Defined.

End TransactionManager.
